(** * separate-storage image optimizer: a shallow embedding of [index.js]

    The Lambda handler of [separate-storage/index.js] reads an S3 or
    EventBridge notification, fetches every object under [original/],
    derives six variants with the [sharp] codec and writes them back under
    [optimized/], [thumbnails/], [sizes/] and [webp/].

    The embedding keeps the shape of the source: JavaScript values are an
    inductive type, exceptions and the calls to S3 and to [sharp] are
    threaded through a small state-and-error monad that records every call
    in a trace, and the S3 service and the codec are the fields of a class,
    [Env], over which everything is stated. *)

From Stdlib Require Import String Ascii List Bool Arith NArith ZArith Lia.
Import ListNotations.
Local Open Scope string_scope.
Local Open Scope list_scope.

(** ** JavaScript strings

    A JavaScript string is modelled by the bytes of its UTF-8 encoding.
    Every pattern the handler searches for is ASCII, so a search on bytes
    finds what the search on UTF-16 code units finds. *)

Module JsString.

Fixpoint is_prefix (p s : string) : bool :=
  match p with
  | EmptyString => true
  | String a p' =>
      match s with
      | EmptyString => false
      | String b s' => Ascii.eqb a b && is_prefix p' s'
      end
  end.

(** [s.startsWith(p)] *)
Definition startsWith (s p : string) : bool := is_prefix p s.

Fixpoint drop (n : nat) (s : string) : string :=
  match n, s with
  | O, _ => s
  | S _, EmptyString => EmptyString
  | S n', String _ s' => drop n' s'
  end.

(** [s.replace(pat, rep)] with a string pattern: the first occurrence
    only.  The replacement strings used by the handler hold no [$]. *)
Fixpoint replace (pat rep s : string) : string :=
  if is_prefix pat s then rep ++ drop (String.length pat) s
  else match s with
       | EmptyString => EmptyString
       | String c s' => String c (replace pat rep s')
       end.

(** [s.split(sep)] for a one-character separator; never empty. *)
Fixpoint split (sep : ascii) (s : string) : list string :=
  match s with
  | EmptyString => [EmptyString]
  | String c s' =>
      if Ascii.eqb c sep then EmptyString :: split sep s'
      else match split sep s' with
           | h :: t => String c h :: t
           | [] => [String c EmptyString]
           end
  end.

(** [a.pop()] read as an expression: the last element. *)
Definition pop (a : list string) : string := List.last a EmptyString.

Definition lower_ascii (c : ascii) : ascii :=
  let n := nat_of_ascii c in
  if Nat.leb 65 n && Nat.leb n 90 then ascii_of_nat (n + 32) else c.

(** [s.toLowerCase()].  Only the letters A-Z are mapped.  Of the
    characters outside ASCII, the Kelvin sign alone lowers to nothing but
    ASCII letters (to [k]), and no supported extension holds a [k]: an
    extension is in the supported list here exactly when it is in
    JavaScript.  The lowering of other characters shows only in the
    console line of an unsupported extension. *)
Fixpoint toLowerCase (s : string) : string :=
  match s with
  | EmptyString => EmptyString
  | String c s' => String (lower_ascii c) (toLowerCase s')
  end.

(** [s.replace(/\+/g, " ")] *)
Fixpoint plus_to_space (s : string) : string :=
  match s with
  | EmptyString => EmptyString
  | String c s' =>
      String (if Ascii.eqb c "+" then " "%char else c) (plus_to_space s')
  end.

Fixpoint no_dot (s : string) : bool :=
  match s with
  | EmptyString => true
  | String c s' => negb (Ascii.eqb c ".") && no_dot s'
  end.

Definition nonempty (s : string) : bool :=
  match s with EmptyString => false | String _ _ => true end.

(** The leftmost match of [/\.([^.]+)$/]: the text before the matched
    dot and the captured group.  A dot starts a match exactly when what
    follows it is non-empty and holds no dot. *)
Fixpoint match_ext (s : string) : option (string * string) :=
  match s with
  | EmptyString => None
  | String c s' =>
      if Ascii.eqb c "." && nonempty s' && no_dot s' then Some (EmptyString, s')
      else match match_ext s' with
           | Some (p, g) => Some (String c p, g)
           | None => None
           end
  end.

(** [s.replace(/\.([^.]+)$/, `-${name}.$1`)] *)
Definition replace_ext_suffix (name s : string) : string :=
  match match_ext s with
  | Some (p, g) => p ++ "-" ++ name ++ "." ++ g
  | None => s
  end.

(** [s.replace(/\.[^.]+$/, ".webp")] *)
Definition replace_ext_webp (s : string) : string :=
  match match_ext s with
  | Some (p, _) => p ++ ".webp"
  | None => s
  end.

End JsString.

(** ** [decodeURIComponent]

    The ECMAScript [Decode] operation with an empty reserved set, on UTF-8
    bytes: every [%XX] escape stands for one octet; an octet of 0x80 or
    more must start a sequence of escapes that is the UTF-8 encoding of a
    code point, which is then the decoded character.  Anything else is a
    [URIError]. *)

Module Uri.

Inductive token :=
| Lit (c : ascii)
| Esc (octet : nat).

Definition hex_digit (c : ascii) : option nat :=
  let n := nat_of_ascii c in
  if Nat.leb 48 n && Nat.leb n 57 then Some (n - 48)
  else if Nat.leb 65 n && Nat.leb n 70 then Some (n - 55)
  else if Nat.leb 97 n && Nat.leb n 102 then Some (n - 87)
  else None.

(** Splits the input into literal characters and escaped octets; [None]
    when a [%] is not followed by two hexadecimal digits. *)
Fixpoint tokens (s : string) : option (list token) :=
  match s with
  | EmptyString => Some []
  | String c s1 =>
      if Ascii.eqb c "%" then
        match s1 with
        | String h (String l s3) =>
            match hex_digit h, hex_digit l, tokens s3 with
            | Some a, Some b, Some ts => Some (Esc (16 * a + b) :: ts)
            | _, _, _ => None
            end
        | _ => None
        end
      else
        match tokens s1 with
        | Some ts => Some (Lit c :: ts)
        | None => None
        end
  end.

Definition between (lo n hi : nat) : bool := Nat.leb lo n && Nat.leb n hi.

Definition continuation (b : nat) : bool := between 128 b 191.

(** The number of octets announced by a leading octet of 0x80 or more:
    its count of leading one bits, refused when it is 1 or above 4. *)
Definition sequence_length (b : nat) : option nat :=
  if between 192 b 223 then Some 2
  else if between 224 b 239 then Some 3
  else if between 240 b 247 then Some 4
  else None.

(** Well-formed UTF-8 sequences of two to four octets: no overlong form,
    no surrogate, nothing above U+10FFFF. *)
Definition well_formed (octets : list nat) : bool :=
  match octets with
  | [b0; b1] => between 194 b0 223 && continuation b1
  | [b0; b1; b2] =>
      (if Nat.eqb b0 224 then between 160 b1 191
       else if Nat.eqb b0 237 then between 128 b1 159
       else between 225 b0 239 && continuation b1)
      && continuation b2
  | [b0; b1; b2; b3] =>
      (if Nat.eqb b0 240 then between 144 b1 191
       else if Nat.eqb b0 244 then between 128 b1 143
       else between 241 b0 243 && continuation b1)
      && continuation b2 && continuation b3
  | _ => false
  end.

(** [assemble pending k ts]: [k] is the number of octets still owed to
    the sequence collected in [pending]. *)
Fixpoint assemble (pending : list nat) (k : nat) (ts : list token)
  : option (list ascii) :=
  match ts with
  | [] => match k with O => Some [] | S _ => None end
  | t :: ts' =>
      match k with
      | O =>
          match t with
          | Lit c => option_map (cons c) (assemble [] 0 ts')
          | Esc b =>
              if Nat.ltb b 128
              then option_map (cons (ascii_of_nat b)) (assemble [] 0 ts')
              else match sequence_length b with
                   | Some n => assemble [b] (n - 1) ts'
                   | None => None
                   end
          end
      | S k' =>
          match t with
          | Lit _ => None
          | Esc b =>
              let octets := pending ++ [b] in
              match k' with
              | O =>
                  if well_formed octets
                  then option_map (app (map ascii_of_nat octets))
                                  (assemble [] 0 ts')
                  else None
              | S _ => assemble octets k' ts'
              end
          end
      end
  end.

Definition decode (s : string) : option string :=
  match tokens s with
  | Some ts => option_map string_of_list_ascii (assemble [] 0 ts)
  | None => None
  end.

End Uri.

(** ** JavaScript values, errors and results *)

(** The values of a parsed JSON payload, and [undefined].  Numbers are
    only ever tested for truth, so integers stand for them. *)
#[warnings="-register-all"] Inductive value :=
| VUndefined
| VNull
| VBool (b : bool)
| VNumber (n : Z)
| VString (s : string)
| VArray (a : list value)
| VObject (props : list (string * value)).

(** An object is the list of its own enumerable properties, in the order
    [Object.keys] lists them, each name once. *)
Definition object := list (string * value).

Inductive error :=
| TypeError (msg : string)
| URIError (msg : string)
| Error (msg : string)
| AwsError (code : string)
| SharpError (msg : string).

Inductive result (A : Type) :=
| Ok (a : A)
| Throw (e : error).
Arguments Ok {A} a.
Arguments Throw {A} e.

Definition and_then {A B} (r : result A) (f : A -> result B) : result B :=
  match r with
  | Ok a => f a
  | Throw e => Throw e
  end.

Declare Scope result_scope.
Delimit Scope result_scope with result.
Bind Scope result_scope with result.
Notation "x <- r ;; k" := (and_then r (fun x => k))
  (at level 61, r at next level, right associativity) : result_scope.

Definition truthy (v : value) : bool :=
  match v with
  | VUndefined | VNull => false
  | VBool b => b
  | VNumber n => negb (Z.eqb n 0)
  | VString s => JsString.nonempty s
  | VArray _ | VObject _ => true
  end.

Fixpoint lookup (o : object) (k : string) : value :=
  match o with
  | [] => VUndefined
  | (k', v) :: o' => if String.eqb k' k then v else lookup o' k
  end.

(** [v.k] for the property names the handler reads ([detail], [bucket],
    [object], [name], [key], [Records], [test], [s3]): none of them is a
    property of a string, number, boolean or array, nor inherited by an
    object. *)
Definition get_prop (v : value) (k : string) : result value :=
  match v with
  | VUndefined =>
      Throw (TypeError ("Cannot read properties of undefined (reading '" ++ k ++ "')"))
  | VNull =>
      Throw (TypeError ("Cannot read properties of null (reading '" ++ k ++ "')"))
  | VObject o => Ok (lookup o k)
  | _ => Ok VUndefined
  end.

Definition Object_keys (o : object) : list string := map fst o.

Definition decodeURIComponent (s : string) : result string :=
  match Uri.decode s with
  | Some r => Ok r
  | None => Throw (URIError "URI malformed")
  end.

(** ** The S3 service and the [sharp] codec *)

(** A buffer is the list of its bytes. *)
Definition buffer := list nat.

Record S3Object := mkS3Object {
  Body : buffer;
  ContentType : option string }.

(** The [Metadata] of the optimized object.  Its [compressionRatio] (a
    floating-point percentage printed by [toFixed(2)]) and [optimizedAt]
    (the wall clock) are left out. *)
Record SizeMetadata := mkSizeMetadata {
  originalSize : nat;
  optimizedSize : nat }.

Record PutRequest := mkPut {
  put_Bucket : value;
  put_Key : string;
  put_Body : buffer;
  put_ContentType : string;
  put_CacheControl : string;
  put_Metadata : option SizeMetadata }.

Record ImageMetadata := mkImageMetadata {
  width : option nat;
  height : option nat }.

(** The calls chained on a [sharp] instance before [toBuffer]. *)
Inductive sharp_op :=
| Rotate
| ResizeInside (w h : option nat) (withoutEnlargement : bool)
| Jpeg (quality : nat) (progressive mozjpeg : bool)
| Png (quality compressionLevel : nat)
| Webp (quality effort : nat)
| ToFormat (format : string) (quality : nat).

(** The calls a run leaves in its trace, with the S3 operations that
    read, write and remove an object.  Of the console lines, those of a
    skipped item and of a caught error are kept. *)
Inductive call :=
| GetObject (bucket : value) (key : string)
| PutObject (req : PutRequest)
| DeleteObject (bucket : value) (key : string)
| SharpMetadata (input : buffer)
| SharpToBuffer (input : buffer) (ops : list sharp_op)
| ConsoleLog (label arg : string)
| ConsoleError (label : string) (e : error).

(** The collaborators of the handler.  [World] is whatever S3 depends on
    and changes: the stored objects, the network, the credentials. *)
Class Env := {
  World : Type;
  s3_getObject : World -> value -> string -> World * result S3Object;
  s3_putObject : World -> PutRequest -> World * result unit;
  sharp_metadata : buffer -> result ImageMetadata;
  sharp_toBuffer : buffer -> list sharp_op -> result buffer }.

(** ** The monad of the handler: a world, a trace of calls, exceptions *)

Section Handler.

Context {E : Env}.

Record state := mkState {
  world : World;
  trace : list call }.

Definition M (A : Type) : Type := state -> state * result A.

Definition ret {A} (a : A) : M A := fun st => (st, Ok a).

Definition throw {A} (e : error) : M A := fun st => (st, Throw e).

Definition bind {A B} (m : M A) (f : A -> M B) : M B :=
  fun st =>
    match m st with
    | (st', Ok a) => f a st'
    | (st', Throw e) => (st', Throw e)
    end.

(** [try { m } catch (error) { h error }] *)
Definition try_catch {A} (m : M A) (h : error -> M A) : M A :=
  fun st =>
    match m st with
    | (st', Ok a) => (st', Ok a)
    | (st', Throw e) => h e st'
    end.

Definition lift {A} (r : result A) : M A := fun st => (st, r).

Definition emit (c : call) : M unit :=
  fun st => (mkState (world st) (trace st ++ [c]), Ok tt).

(** [Promise.all(ms)]: every member is started, in order; the result is
    the list of their values, or a rejection when a member rejects.
    Which of several rejections surfaces depends on the order in which
    the members settle; the model takes the first in the list. *)
Fixpoint settle_all {A} (ms : list (M A)) (st : state)
  : state * list (result A) :=
  match ms with
  | [] => (st, [])
  | m :: ms' =>
      let (st1, r) := m st in
      let (st2, rs) := settle_all ms' st1 in
      (st2, r :: rs)
  end.

Fixpoint all_values {A} (rs : list (result A)) : result (list A) :=
  match rs with
  | [] => Ok []
  | Throw e :: _ => Throw e
  | Ok a :: rs' =>
      match all_values rs' with
      | Ok l => Ok (a :: l)
      | Throw e => Throw e
      end
  end.

Definition Promise_all {A} (ms : list (M A)) : M (list A) :=
  fun st => let (st', rs) := settle_all ms st in (st', all_values rs).

(** [for (const x of xs) { body x }] *)
Fixpoint for_of {A} (xs : list A) (body : A -> M unit) : M unit :=
  match xs with
  | [] => ret tt
  | x :: xs' => bind (body x) (fun _ => for_of xs' body)
  end.

End Handler.

Declare Scope js_scope.
Delimit Scope js_scope with js.
Notation "x <- m ;; k" := (bind m (fun x => k))
  (at level 61, m at next level, right associativity) : js_scope.
Notation "m ;;; k" := (bind m (fun _ => k))
  (at level 61, right associativity) : js_scope.
Local Open Scope js_scope.

(** ** [index.js] *)

Section IndexJs.

Context {E : Env}.

(** [s3.getObject({Bucket, Key}).promise()] *)
Definition getObject (bucket : value) (key : string) : M S3Object :=
  fun st =>
    let (w, r) := s3_getObject (world st) bucket key in
    (mkState w (trace st ++ [GetObject bucket key]), r).

(** [s3.putObject(req).promise()] *)
Definition putObject (req : PutRequest) : M unit :=
  fun st =>
    let (w, r) := s3_putObject (world st) req in
    (mkState w (trace st ++ [PutObject req]), r).

(** [await sharp(buffer).metadata()] *)
Definition metadata (input : buffer) : M ImageMetadata :=
  emit (SharpMetadata input) ;;; lift (sharp_metadata input).

(** [await sharp(buffer). ... .toBuffer()] *)
Definition toBuffer (input : buffer) (ops : list sharp_op) : M buffer :=
  emit (SharpToBuffer input ops) ;;; lift (sharp_toBuffer input ops).

Definition console_log (label arg : string) : M unit :=
  emit (ConsoleLog label arg).

(** [d > bound] for a dimension that may be [undefined]. *)
Definition exceeds (d : option nat) (bound : nat) : bool :=
  match d with
  | Some n => Nat.ltb bound n
  | None => false
  end.

Definition optimize_ops (md : ImageMetadata) : list sharp_op :=
  let maxDimension := 1200 in
  let sharpInstance := [Rotate] in
  if exceeds (width md) maxDimension || exceeds (height md) maxDimension
  then sharpInstance ++ [ResizeInside (Some maxDimension) (Some maxDimension) true]
  else sharpInstance.

Definition optimizeImage (input : buffer) (extension : string) : M buffer :=
  md <- metadata input ;;
  let sharpInstance := optimize_ops md in
  if String.eqb extension "jpg" || String.eqb extension "jpeg" then
    toBuffer input (sharpInstance ++ [Jpeg 85 true true])
  else if String.eqb extension "png" then
    toBuffer input (sharpInstance ++ [Png 85 9])
  else if String.eqb extension "webp" then
    toBuffer input (sharpInstance ++ [Webp 85 6])
  else throw (Error ("Unsupported image format: " ++ extension)).

(** [extension === "jpg" ? "jpeg" : extension] *)
Definition format_of (extension : string) : string :=
  if String.eqb extension "jpg" then "jpeg" else extension.

Definition thumbnail_ops (extension : string) : list sharp_op :=
  [ResizeInside (Some 300) (Some 300) true; ToFormat (format_of extension) 80].

Definition createThumbnail (input : buffer) (extension : string) : M buffer :=
  toBuffer input (thumbnail_ops extension).

Definition resized_ops (extension : string) (w : nat) : list sharp_op :=
  [ResizeInside (Some w) None true; ToFormat (format_of extension) 85].

Definition createResizedImage (input : buffer) (extension : string) (w : nat)
  : M buffer :=
  toBuffer input (resized_ops extension w).

Definition webp_ops : list sharp_op := [Webp 85 6].

Definition convertToWebP (input : buffer) : M buffer :=
  toBuffer input webp_ops.

(** What the handler returns; [body] is the value that [JSON.stringify]
    turns into the body string. *)
Record Response := mkResponse {
  statusCode : Z;
  body : value }.

Definition supportedImageFormats : list string :=
  ["jpg"; "jpeg"; "png"; "webp"; "gif"; "bmp"; "tiff"].

(** [a.includes(x)] *)
Definition includes (a : list string) (x : string) : bool :=
  existsb (String.eqb x) a.

Definition sizes : list (string * nat) :=
  [("small", 320); ("medium", 640); ("large", 1024)].

(** [s || d] for a string that may be [undefined]. *)
Definition or_else (s : option string) (d : string) : string :=
  match s with
  | Some c => if JsString.nonempty c then c else d
  | None => d
  end.

Definition cacheControl : string := "max-age=31536000".

(** [filename.split(".").pop().toLowerCase()] *)
Definition extension_of (filename : string) : string :=
  JsString.toLowerCase (JsString.pop (JsString.split "." filename)).

(** The body of the [try] block, lines 74-229.  [continue] leaves the
    block with nothing more done. *)
Definition process_object (bucket : value) (key : string) : M unit :=
  originalImage <- getObject bucket key ;;
  let filename := JsString.replace "original/" EmptyString key in
  let fileExtension := extension_of filename in
  if negb (includes supportedImageFormats fileExtension) then
    console_log "Unsupported file format:" fileExtension
  else
    let contentType := or_else (ContentType originalImage) EmptyString in
    if negb (JsString.startsWith contentType "image/") then
      console_log "Not an image file based on Content-Type:" contentType
    else
      optimizedBuffer <- optimizeImage (Body originalImage) fileExtension ;;
      thumbnailBuffer <- createThumbnail (Body originalImage) fileExtension ;;
      resizedImages <-
        Promise_all
          (map (fun size =>
                  b <- createResizedImage (Body originalImage) fileExtension
                                          (snd size) ;;
                  ret (fst size, b))
               sizes) ;;
      let originalSize := List.length (Body originalImage) in
      let optimizedSize := List.length optimizedBuffer in
      putObject
        (mkPut bucket ("optimized/" ++ filename) optimizedBuffer
               (or_else (ContentType originalImage)
                        ("image/" ++ format_of fileExtension))
               cacheControl
               (Some (mkSizeMetadata originalSize optimizedSize))) ;;;
      putObject
        (mkPut bucket ("thumbnails/" ++ filename) thumbnailBuffer
               ("image/" ++ format_of fileExtension) cacheControl None) ;;;
      Promise_all
        (map (fun resized =>
                let sizeFilename :=
                  JsString.replace_ext_suffix (fst resized) filename in
                putObject
                  (mkPut bucket ("sizes/" ++ sizeFilename) (snd resized)
                         ("image/" ++ format_of fileExtension)
                         cacheControl None))
             resizedImages) ;;;
      webpBuffer <- convertToWebP (Body originalImage) ;;
      let webpFilename := JsString.replace_ext_webp filename in
      putObject
        (mkPut bucket ("webp/" ++ webpFilename) webpBuffer "image/webp"
               cacheControl None).

(** [k.replace(/\+/g, " ")] for whatever value [k] is. *)
Definition key_replace (k : value) : result string :=
  match k with
  | VString s => Ok (JsString.plus_to_space s)
  | VUndefined =>
      Throw (TypeError "Cannot read properties of undefined (reading 'replace')")
  | VNull =>
      Throw (TypeError "Cannot read properties of null (reading 'replace')")
  | _ => Throw (TypeError "record.s3.object.key.replace is not a function")
  end.

(** Lines 64-65: the bucket and the decoded key of a record. *)
Definition record_target (record : value) : result (value * string) :=
  (s <- get_prop record "s3" ;;
   b <- get_prop s "bucket" ;;
   bucket <- get_prop b "name" ;;
   s' <- get_prop record "s3" ;;
   o <- get_prop s' "object" ;;
   k <- get_prop o "key" ;;
   spaced <- key_replace k ;;
   key <- decodeURIComponent spaced ;;
   Ok (bucket, key))%result.

(** Lines 67-233: the prefix test, then the guarded block. *)
Definition process_item (bucket : value) (key : string) : M unit :=
  if negb (JsString.startsWith key "original/") then
    console_log "Skipping non-original file:" key
  else
    try_catch (process_object bucket key)
              (fun error =>
                 emit (ConsoleError ("Error processing " ++ key ++ ":") error) ;;;
                 throw error).

(** One turn of the loop, lines 63-234. *)
Definition process_record (record : value) : M unit :=
  target <- lift (record_target record) ;;
  process_item (fst target) (snd target).

(** [event.detail && event.detail.bucket && event.detail.object] *)
Definition has_detail (event : value) : M bool :=
  detail <- lift (get_prop event "detail") ;;
  if truthy detail then
    b <- lift (get_prop detail "bucket") ;;
    if truthy b then
      o <- lift (get_prop detail "object") ;;
      ret (truthy o)
    else ret false
  else ret false.

Definition working_response : Response :=
  mkResponse 200
    (VObject
       [("message",
         VString "Lambda function is working. Configure S3 trigger or EventBridge to process images.");
        ("note",
         VString "This function processes images when triggered by S3 events in the 'original/' folder.")]).

Definition invalid_response (event : object) : Response :=
  mkResponse 400
    (VObject
       [("error",
         VString "Invalid event format. Expected S3 event or EventBridge event.");
        ("received", VArray (map VString (Object_keys event)))]).

Definition message_response (msg : string) : Response :=
  mkResponse 200 (VObject [("message", VString msg)]).

(** Lines 9-53: the records to process, or the response of an early
    return. *)
Definition select_records (event : object) : M (Response + list value) :=
  let ev := VObject event in
  direct <- has_detail ev ;;
  if direct then
    detail <- lift (get_prop ev "detail") ;;
    b <- lift (get_prop detail "bucket") ;;
    name <- lift (get_prop b "name") ;;
    o <- lift (get_prop detail "object") ;;
    key <- lift (get_prop o "key") ;;
    ret (inr [VObject
                [("s3",
                  VObject [("bucket", VObject [("name", name)]);
                           ("object", VObject [("key", key)])])]])
  else
    recs <- lift (get_prop ev "Records") ;;
    match recs with
    | VArray (r :: rs) => ret (inr (r :: rs))
    | _ =>
        t <- lift (get_prop ev "test") ;;
        match t with
        | VBool true => ret (inl working_response)
        | _ => ret (inl (invalid_response event))
        end
    end.

(** [exports.handler].  The event is an object: S3 notifications,
    EventBridge events and the test payload all are. *)
Definition handler (event : object) : M Response :=
  sel <- select_records event ;;
  match sel with
  | inl response => ret response
  | inr records =>
      match records with
      | [] => ret (message_response "No records to process")
      | _ =>
          for_of records process_record ;;;
          ret (message_response "Images processed successfully")
      end
  end.

(** Runs a computation in a world, from an empty trace. *)
Definition run {A} (m : M A) (w : World) : state * result A :=
  m (mkState w []).

(** [grows_at P m st]: run from [st], [m] only appends calls that
    satisfy [P] to the trace. *)
Definition grows_at {A} (P : call -> Prop) (m : M A) (st : state) : Prop :=
  exists tr, trace (fst (m st)) = trace st ++ tr /\ Forall P tr.

Definition grows {A} (P : call -> Prop) (m : M A) : Prop :=
  forall st, grows_at P m st.

End IndexJs.

(** ** Reading a trace *)

Definition put_requests (tr : list call) : list PutRequest :=
  flat_map (fun c => match c with PutObject r => [r] | _ => [] end) tr.

(** The keys of the write requests issued, in their order. *)
Definition written_keys (tr : list call) : list string :=
  map put_Key (put_requests tr).

Definition codec_pipelines (tr : list call) : list (list sharp_op) :=
  flat_map (fun c => match c with SharpToBuffer _ ops => [ops] | _ => [] end) tr.

Definition is_s3_call (c : call) : bool :=
  match c with
  | GetObject _ _ | PutObject _ | DeleteObject _ _ => true
  | _ => false
  end.

Definition s3_calls (tr : list call) : list call := filter is_s3_call tr.

(** What the invariant on the source objects asks of one call. *)
Definition preserves_originals (c : call) : Prop :=
  match c with
  | DeleteObject _ _ => False
  | PutObject r => JsString.startsWith (put_Key r) "original/" = false
  | GetObject _ k => JsString.startsWith k "original/" = true
  | _ => True
  end.

Definition is_rotate (op : sharp_op) : bool :=
  match op with Rotate => true | _ => false end.

Definition rotations (ops : list sharp_op) : nat :=
  List.length (filter is_rotate ops).

(** ** The statements of the specification, in its words *)

Module Spec.

(** The destination key layout for the source key
    [original/<name>.<ext>]. *)
Definition destination_keys (name ext : string) : list string :=
  [ ("optimized/" ++ name ++ "." ++ ext)%string;
    ("thumbnails/" ++ name ++ "." ++ ext)%string;
    ("sizes/" ++ name ++ "-small." ++ ext)%string;
    ("sizes/" ++ name ++ "-medium." ++ ext)%string;
    ("sizes/" ++ name ++ "-large." ++ ext)%string;
    ("webp/" ++ name ++ ".webp")%string ].

Inductive check := PrefixCheck | ExtensionCheck | ContentTypeCheck.

(** The first eligibility check an item fails, if any: prefix, then
    extension, then content type. *)
Definition first_failed (key : string) (contentType : option string)
  : option check :=
  if negb (JsString.startsWith key "original/") then Some PrefixCheck
  else if negb (includes supportedImageFormats
                  (extension_of (JsString.replace "original/" EmptyString key)))
  then Some ExtensionCheck
  else if negb (JsString.startsWith (or_else contentType EmptyString) "image/")
  then Some ContentTypeCheck
  else None.

Definition eligible (key : string) (contentType : option string) : bool :=
  match first_failed key contentType with
  | None => true
  | Some _ => false
  end.

Definition skip_line (c : check) (key : string) (contentType : option string)
  : call :=
  match c with
  | PrefixCheck => ConsoleLog "Skipping non-original file:" key
  | ExtensionCheck =>
      ConsoleLog "Unsupported file format:"
                 (extension_of (JsString.replace "original/" EmptyString key))
  | ContentTypeCheck =>
      ConsoleLog "Not an image file based on Content-Type:"
                 (or_else contentType EmptyString)
  end.

(** The four shapes of an event. *)
Inductive shape :=
| DirectNotification (bucket_name object_key : value)
| BatchNotification (records : list value)
| Probe
| Unrecognized.

Definition field (v : value) (k : string) : value :=
  match v with
  | VObject o => lookup o k
  | _ => VUndefined
  end.

Definition classify (event : object) : shape :=
  let detail := lookup event "detail" in
  if truthy (field detail "bucket") && truthy (field detail "object") then
    DirectNotification (field (field detail "bucket") "name")
                       (field (field detail "object") "key")
  else
    match lookup event "Records" with
    | VArray (r :: rs) => BatchNotification (r :: rs)
    | _ =>
        match lookup event "test" with
        | VBool true => Probe
        | _ => Unrecognized
        end
    end.

Definition work_item (bucket_name object_key : value) : value :=
  VObject [("s3", VObject [("bucket", VObject [("name", bucket_name)]);
                           ("object", VObject [("key", object_key)])])].

(** The content type of a variant by its target format. *)
Definition content_type_of_format (format : string) : string :=
  if String.eqb format "jpeg" then "image/jpeg" else "image/" ++ format.

(** The content type of a variant by the source extension. *)
Definition content_type_of_extension (ext : string) : string :=
  if String.eqb ext "jpg" || String.eqb ext "jpeg" then "image/jpeg"
  else "image/" ++ ext.

End Spec.

(** ** An S3 bucket in memory and a stand-in codec, to run the handler *)

Module Memory.

Definition store := list (string * S3Object).

Fixpoint find (key : string) (s : store) : option S3Object :=
  match s with
  | [] => None
  | (k, o) :: s' => if String.eqb k key then Some o else find key s'
  end.

Definition get (s : store) (bucket : value) (key : string)
  : store * result S3Object :=
  match find key s with
  | Some o => (s, Ok o)
  | None => (s, Throw (AwsError "NoSuchKey"))
  end.

Definition put (writable : bool) (s : store) (req : PutRequest)
  : store * result unit :=
  if writable
  then ((put_Key req, mkS3Object (put_Body req) (Some (put_ContentType req))) :: s,
        Ok tt)
  else (s, Throw (AwsError "AccessDenied")).

(** Every non-empty buffer decodes as a 2000x1500 image; encoding gives
    the input back. *)
Definition image_metadata (input : buffer) : result ImageMetadata :=
  match input with
  | [] => Throw (SharpError "Input Buffer is empty")
  | _ => Ok (mkImageMetadata (Some 2000) (Some 1500))
  end.

Definition encode (input : buffer) (ops : list sharp_op) : result buffer :=
  Ok input.

Definition env (writable : bool) : Env :=
  {| World := store;
     s3_getObject := get;
     s3_putObject := put writable;
     sharp_metadata := image_metadata;
     sharp_toBuffer := encode |}.

Definition direct_event (bucket key : string) : object :=
  [("detail", VObject [("bucket", VObject [("name", VString bucket)]);
                       ("object", VObject [("key", VString key)])])].

Definition s3_record (bucket key : string) : value :=
  Spec.work_item (VString bucket) (VString key).

Definition batch_event (records : list value) : object :=
  [("Records", VArray records)].

(** A stored object of four bytes with the declared content type. *)
Definition image (contentType : string) : S3Object :=
  mkS3Object [255; 216; 255; 224] (Some contentType).

(** The state before the first call. *)
Definition start (writable : bool) (s : store) : @state (env writable) :=
  @mkState (env writable) s [].

Definition stored (req : PutRequest) (s : store) : store :=
  (put_Key req, mkS3Object (put_Body req) (Some (put_ContentType req))) :: s.

End Memory.

(** ** The calls one item may cause *)

(** What [select_records] returns, by the shape of the event. *)
Definition selected (event : object) : Response + list value :=
  match Spec.classify event with
  | Spec.DirectNotification b k => inr [Spec.work_item b k]
  | Spec.BatchNotification rs => inr rs
  | Spec.Probe => inl working_response
  | Spec.Unrecognized => inl (invalid_response event)
  end.

(** The four kinds of write requests of [process_object], for the file
    name [filename] and the fetched object [obj]. *)
Inductive variant_request (bucket : value) (filename : string) (obj : S3Object)
  : PutRequest -> Prop :=
| OptimizedRequest body md :
    variant_request bucket filename obj
      (mkPut bucket ("optimized/" ++ filename) body
             (or_else (ContentType obj)
                      ("image/" ++ format_of (extension_of filename)))
             cacheControl (Some md))
| ThumbnailRequest body :
    variant_request bucket filename obj
      (mkPut bucket ("thumbnails/" ++ filename) body
             ("image/" ++ format_of (extension_of filename)) cacheControl None)
| SizedRequest name body :
    variant_request bucket filename obj
      (mkPut bucket ("sizes/" ++ JsString.replace_ext_suffix name filename) body
             ("image/" ++ format_of (extension_of filename)) cacheControl None)
| WebpRequest body :
    variant_request bucket filename obj
      (mkPut bucket ("webp/" ++ JsString.replace_ext_webp filename) body
             "image/webp" cacheControl None).

(** What a call made for the item [(bucket, key)] looks like, when the
    fetch answered [fetched]. *)
Definition item_call (bucket : value) (key : string) (fetched : option S3Object)
  (c : call) : Prop :=
  match c with
  | GetObject b k =>
      b = bucket /\ k = key /\ JsString.startsWith key "original/" = true
  | PutObject req =>
      exists obj, fetched = Some obj /\
                  Spec.eligible key (ContentType obj) = true /\
                  variant_request bucket (JsString.replace "original/" EmptyString key)
                                  obj req
  | DeleteObject _ _ => False
  | _ => True
  end.

Definition fetched_at {E : Env} (bucket : value) (key : string) (st : state)
  : option S3Object :=
  match snd (s3_getObject (world st) bucket key) with
  | Ok obj => Some obj
  | Throw _ => None
  end.

(** [record] has the fields the loop reads: [s3.bucket.name] is [bucket]
    and [s3.object.key] is the string [rawkey]. *)
Definition describes (record bucket : value) (rawkey : string) : Prop :=
  exists r s b o,
    record = VObject r /\ lookup r "s3" = VObject s /\
    lookup s "bucket" = VObject b /\ lookup b "name" = bucket /\
    lookup s "object" = VObject o /\ lookup o "key" = VString rawkey.

(** The content type stored with a write, by the variant its key tells:
    the declared type of the source for [optimized/], the type of the
    target format for the others. *)
Definition stored_type (extension : string) (declared : option string)
  (r : PutRequest) : Prop :=
  (JsString.startsWith (put_Key r) "optimized/" = true ->
   declared = Some (put_ContentType r)) /\
  (JsString.startsWith (put_Key r) "thumbnails/" = true \/
   JsString.startsWith (put_Key r) "sizes/" = true ->
   put_ContentType r = Spec.content_type_of_format (format_of extension)) /\
  (JsString.startsWith (put_Key r) "webp/" = true ->
   put_ContentType r = Spec.content_type_of_format "webp").

(** The content type of the variants other than [optimized/], by the
    extension of the source. *)
Definition variant_type (extension : string) (r : PutRequest) : Prop :=
  (JsString.startsWith (put_Key r) "thumbnails/" = true \/
   JsString.startsWith (put_Key r) "sizes/" = true ->
   put_ContentType r = Spec.content_type_of_extension extension) /\
  (JsString.startsWith (put_Key r) "webp/" = true ->
   put_ContentType r = "image/webp").

(** ** The steps of one item, in full *)

Definition encoders : list sharp_op :=
  [Jpeg 85 true true; Png 85 9; Webp 85 6].

(** The pipelines [process_object] may hand to the codec, for a source of
    the given extension. *)
Inductive recipe (extension : string) : list sharp_op -> Prop :=
| OptimizedRecipe md enc :
    In enc encoders -> recipe extension (optimize_ops md ++ [enc])
| ThumbnailRecipe : recipe extension (thumbnail_ops extension)
| ResizedRecipe size :
    In size sizes -> recipe extension (resized_ops extension (snd size))
| WebpRecipe : recipe extension webp_ops.

(** The optimized, thumbnail and sized transforms of [obj] have all
    succeeded. *)
Definition transforms_done {E : Env} (obj : S3Object) (extension : string)
  : Prop :=
  (exists md enc out,
      sharp_metadata (Body obj) = Ok md /\ In enc encoders /\
      sharp_toBuffer (Body obj) (optimize_ops md ++ [enc]) = Ok out) /\
  (exists out, sharp_toBuffer (Body obj) (thumbnail_ops extension) = Ok out) /\
  (forall size, In size sizes ->
                exists out,
                  sharp_toBuffer (Body obj) (resized_ops extension (snd size))
                  = Ok out).

(** The write requests of [process_object] with all their fields: the
    body is what the codec returned for the pipeline of the variant. *)
Inductive stored_variant {E : Env} (bucket : value) (filename : string)
  (obj : S3Object) : PutRequest -> Prop :=
| StoredOptimized md enc body :
    sharp_metadata (Body obj) = Ok md ->
    In enc encoders ->
    sharp_toBuffer (Body obj) (optimize_ops md ++ [enc]) = Ok body ->
    stored_variant bucket filename obj
      (mkPut bucket ("optimized/" ++ filename) body
             (or_else (ContentType obj)
                      ("image/" ++ format_of (extension_of filename)))
             cacheControl
             (Some (mkSizeMetadata (List.length (Body obj)) (List.length body))))
| StoredThumbnail body :
    sharp_toBuffer (Body obj) (thumbnail_ops (extension_of filename)) = Ok body ->
    stored_variant bucket filename obj
      (mkPut bucket ("thumbnails/" ++ filename) body
             ("image/" ++ format_of (extension_of filename)) cacheControl None)
| StoredSized size body :
    In size sizes ->
    sharp_toBuffer (Body obj) (resized_ops (extension_of filename) (snd size))
    = Ok body ->
    stored_variant bucket filename obj
      (mkPut bucket
             ("sizes/" ++ JsString.replace_ext_suffix (fst size) filename) body
             ("image/" ++ format_of (extension_of filename)) cacheControl None)
| StoredWebp body :
    sharp_toBuffer (Body obj) webp_ops = Ok body ->
    stored_variant bucket filename obj
      (mkPut bucket ("webp/" ++ JsString.replace_ext_webp filename) body
             "image/webp" cacheControl None).

(** What a call made for the item [(bucket, key)] is, in full, when the
    fetch answered [fetched]. *)
Definition item_step {E : Env} (bucket : value) (key : string)
  (fetched : option S3Object) (c : call) : Prop :=
  let filename := JsString.replace "original/" EmptyString key in
  match c with
  | GetObject b k => b = bucket /\ k = key
  | PutObject req =>
      exists obj, fetched = Some obj /\
                  transforms_done obj (extension_of filename) /\
                  stored_variant bucket filename obj req
  | DeleteObject _ _ => False
  | SharpMetadata input => exists obj, fetched = Some obj /\ input = Body obj
  | SharpToBuffer input ops =>
      exists obj, fetched = Some obj /\ input = Body obj /\
                  recipe (extension_of filename) ops
  | ConsoleLog _ _ | ConsoleError _ _ => True
  end.

Definition never_enlarges (op : sharp_op) : Prop :=
  match op with
  | ResizeInside _ _ withoutEnlargement => withoutEnlargement = true
  | _ => True
  end.

(** The S3 and the codec answer every request of the item. *)
Definition cooperative {E : Env} (bucket : value) (key : string) (st : state)
  (obj : S3Object) : Prop :=
  exists w1 md enc after_put,
    s3_getObject (world st) bucket key = (w1, Ok obj) /\
    JsString.startsWith (or_else (ContentType obj) EmptyString) "image/" = true /\
    sharp_metadata (Body obj) = Ok md /\
    (forall ops, sharp_toBuffer (Body obj) ops = Ok (enc ops)) /\
    (forall w req, s3_putObject w req = (after_put w req, Ok tt)).

(** The keys of the six writes for a file name, as [process_object]
    builds them. *)
Definition variant_keys (filename : string) : list string :=
  [ ("optimized/" ++ filename)%string;
    ("thumbnails/" ++ filename)%string;
    ("sizes/" ++ JsString.replace_ext_suffix "small" filename)%string;
    ("sizes/" ++ JsString.replace_ext_suffix "medium" filename)%string;
    ("sizes/" ++ JsString.replace_ext_suffix "large" filename)%string;
    ("webp/" ++ JsString.replace_ext_webp filename)%string ].

Definition is_get (c : call) : bool :=
  match c with GetObject _ _ => true | _ => false end.

Definition fetches (tr : list call) : nat := List.length (filter is_get tr).

Definition writes (tr : list call) : nat := List.length (put_requests tr).

(** [costs_at g p m st]: run from [st], [m] adds at most [g] fetches and
    [p] writes to the trace. *)
Definition costs_at {E : Env} {A} (g p : nat) (m : M A) (st : state) : Prop :=
  exists tr,
    trace (fst (m st)) = trace st ++ tr /\ fetches tr <= g /\ writes tr <= p.

(** An S3 that holds one and the same object under every key and accepts
    every write, with the stand-in codec of [Memory]. *)
Definition uniform_env (obj : S3Object) : Env :=
  {| World := unit;
     s3_getObject := fun w _ _ => (w, Ok obj);
     s3_putObject := fun w _ => (w, Ok tt);
     sharp_metadata := Memory.image_metadata;
     sharp_toBuffer := Memory.encode |}.

(** Two faulty variations of the bucket in memory. *)
Module Faulty.

Definition is_webp_only (ops : list sharp_op) : bool :=
  match ops with
  | [Webp quality effort] => Nat.eqb quality 85 && Nat.eqb effort 6
  | _ => false
  end.

(** A codec that cannot convert to webp. *)
Definition encode (input : buffer) (ops : list sharp_op) : result buffer :=
  if is_webp_only ops then Throw (SharpError "webp: unsupported")
  else Ok input.

Definition no_webp_env : Env :=
  {| World := Memory.store;
     s3_getObject := Memory.get;
     s3_putObject := Memory.put true;
     sharp_metadata := Memory.image_metadata;
     sharp_toBuffer := encode |}.

(** A bucket that refuses the writes under [sizes/]. *)
Definition put (s : Memory.store) (req : PutRequest)
  : Memory.store * result unit :=
  (s, if JsString.startsWith (put_Key req) "sizes/"
      then Throw (AwsError "AccessDenied") else Ok tt).

Definition sizes_denied_env : Env :=
  {| World := Memory.store;
     s3_getObject := Memory.get;
     s3_putObject := put;
     sharp_metadata := Memory.image_metadata;
     sharp_toBuffer := Memory.encode |}.

End Faulty.

(** [s] holds the character [c]. *)
Fixpoint mentions (c : ascii) (s : string) : bool :=
  match s with
  | EmptyString => false
  | String c' s' => Ascii.eqb c' c || mentions c s'
  end.

(** ** The helper of the README

    [getImageUrl(filename, type, size)], the front-end helper the README
    gives for the objects the handler writes.  [size] is [None] for the
    default [null]; a size holds no [$]. *)

Definition baseUrl : string := "https://your-cloudfront-domain.com".

Definition getImageUrl (filename type : string) (size : option string) : string :=
  if String.eqb type "thumbnail" then
    baseUrl ++ "/thumbnails/" ++ filename
  else if String.eqb type "square-thumbnail" then
    baseUrl ++ "/square-thumbnails/" ++ filename
  else if String.eqb type "webp" then
    baseUrl ++ "/webp/" ++ JsString.replace_ext_webp filename
  else if String.eqb type "size" then
    let sizeFilename :=
      JsString.replace_ext_suffix
        (match size with Some s => s | None => "null" end) filename in
    baseUrl ++ "/sizes/" ++ sizeFilename
  else
    baseUrl ++ "/optimized/" ++ filename.

(** ** What the calls of a trace were answered

    The trace keeps the requests, not the answers.  Since S3 answers by
    the world and the request, and the codec by the request alone, the
    answers are found again by replaying the calls of the trace in their
    order, from the world the run started in. *)

Definition errors_of {A} (r : result A) : list error :=
  match r with
  | Ok _ => []
  | Throw e => [e]
  end.

(** The world after the calls of [tr] and the errors they raised, in
    order: the rejections of the fetches and the writes, and the failures
    of the codec to read metadata or to run a pipeline. *)
Fixpoint replay {E : Env} (w : World) (tr : list call) : World * list error :=
  match tr with
  | [] => (w, [])
  | c :: tr' =>
      match c with
      | GetObject bucket key =>
          let (w1, r) := s3_getObject w bucket key in
          let (w2, es) := replay w1 tr' in
          (w2, errors_of r ++ es)
      | PutObject req =>
          let (w1, r) := s3_putObject w req in
          let (w2, es) := replay w1 tr' in
          (w2, errors_of r ++ es)
      | SharpMetadata input =>
          let (w2, es) := replay w tr' in
          (w2, errors_of (sharp_metadata input) ++ es)
      | SharpToBuffer input ops =>
          let (w2, es) := replay w tr' in
          (w2, errors_of (sharp_toBuffer input ops) ++ es)
      | DeleteObject _ _ | ConsoleLog _ _ | ConsoleError _ _ => replay w tr'
      end
  end.

(** The errors that the fetches, decodings, transforms and writes of a
    trace raised. *)
Definition raised {E : Env} (w : World) (tr : list call) : list error :=
  snd (replay w tr).

(** [accounts strict m st]: run from [st], [m] swallows no error.  When it
    returns, none of its calls has raised; when it throws, it throws one
    of the errors its calls raised, or, unless [strict], an error of its
    own without any call having raised. *)
Definition accounts {E : Env} {A} (strict : bool) (m : M A) (st : state)
  : Prop :=
  exists tr new,
    trace (fst (m st)) = trace st ++ tr /\
    replay (world st) tr = (world (fst (m st)), new) /\
    match snd (m st) with
    | Ok _ => new = []
    | Throw e => In e new \/ (strict = false /\ new = [])
    end.

(** * Properties *)

(** ** Strings *)

Section StringFacts.

Local Open Scope string_scope.

Lemma is_prefix_app (p s : string) : JsString.is_prefix p (p ++ s) = true.
Proof.
  induction p as [|c p IH]; simpl; [reflexivity|].
  now rewrite Ascii.eqb_refl.
Qed.

Lemma drop_app (p s : string) : JsString.drop (String.length p) (p ++ s) = s.
Proof. induction p; simpl; auto. Qed.

Lemma replace_prefix (p r s : string) :
  JsString.replace p r (p ++ s) = r ++ s.
Proof.
  destruct p as [|c p].
  - destruct s; reflexivity.
  - change (String c p ++ s) with (String c (p ++ s)).
    cbn [JsString.replace].
    change (String c (p ++ s)) with (String c p ++ s).
    rewrite is_prefix_app, drop_app. reflexivity.
Qed.

Lemma no_dot_split (s : string) :
  JsString.no_dot s = true -> JsString.split "." s = [s].
Proof.
  induction s as [|c s IH]; simpl; [reflexivity|].
  destruct (Ascii.eqb c "."); simpl; [discriminate|].
  intros H. now rewrite IH.
Qed.

Lemma split_nonempty (sep : ascii) (s : string) : JsString.split sep s <> [].
Proof.
  destruct s as [|c s]; simpl; [discriminate|].
  destruct (Ascii.eqb c sep); [discriminate|].
  destruct (JsString.split sep s); discriminate.
Qed.

Lemma pop_cons (h : string) (t : list string) :
  t <> [] -> JsString.pop (h :: t) = JsString.pop t.
Proof. destruct t; [congruence | reflexivity]. Qed.

Lemma split_app_dot (a b : string) :
  exists h h' t, JsString.split "." (a ++ "." ++ b) = h :: h' :: t.
Proof.
  induction a as [|c a IH].
  - simpl. destruct (JsString.split "." b) as [|h' t] eqn:Hb.
    + now apply split_nonempty in Hb.
    + now exists EmptyString, h', t.
  - destruct IH as (h & h' & t & IH).
    change (String c a ++ "." ++ b) with (String c (a ++ "." ++ b)).
    cbn [JsString.split]. rewrite IH.
    destruct (Ascii.eqb c "."); eauto.
Qed.

(** The extension of [<name>.<ext>] is [<ext>] when [<ext>] holds no
    dot. *)
Lemma pop_split_ext (name ext : string) :
  JsString.no_dot ext = true ->
  JsString.pop (JsString.split "." (name ++ "." ++ ext)) = ext.
Proof.
  intros Hext. induction name as [|c name IH].
  - simpl. rewrite (no_dot_split _ Hext). reflexivity.
  - destruct (split_app_dot name ext) as (h & h' & t & Hs).
    change (String c name ++ "." ++ ext) with (String c (name ++ "." ++ ext)).
    cbn [JsString.split]. rewrite Hs in *.
    destruct (Ascii.eqb c "."); exact IH.
Qed.

Lemma match_ext_app (name ext : string) :
  JsString.nonempty ext = true -> JsString.no_dot ext = true ->
  JsString.match_ext (name ++ "." ++ ext) = Some (name, ext).
Proof.
  intros Hne Hnd. induction name as [|c name IH].
  - simpl. now rewrite Hne, Hnd.
  - change ((String c name ++ "." ++ ext)) with (String c (name ++ "." ++ ext)).
    cbn [JsString.match_ext]. rewrite IH.
    destruct (Ascii.eqb c "." && JsString.nonempty (name ++ "." ++ ext)
              && JsString.no_dot (name ++ "." ++ ext)) eqn:Hc; [|reflexivity].
    exfalso. apply andb_prop in Hc as [_ Hc].
    clear -Hc. induction name; simpl in Hc.
    + discriminate.
    + apply andb_prop in Hc as [_ Hc]. auto.
Qed.

Lemma replace_ext_suffix_app (n name ext : string) :
  JsString.nonempty ext = true -> JsString.no_dot ext = true ->
  JsString.replace_ext_suffix n (name ++ "." ++ ext)
  = name ++ "-" ++ n ++ "." ++ ext.
Proof.
  intros Hne Hnd. unfold JsString.replace_ext_suffix.
  now rewrite match_ext_app.
Qed.

Lemma replace_ext_webp_app (name ext : string) :
  JsString.nonempty ext = true -> JsString.no_dot ext = true ->
  JsString.replace_ext_webp (name ++ "." ++ ext) = name ++ ".webp".
Proof.
  intros Hne Hnd. unfold JsString.replace_ext_webp.
  now rewrite match_ext_app.
Qed.

Lemma startsWith_app (p s : string) : JsString.startsWith (p ++ s) p = true.
Proof. apply is_prefix_app. Qed.

End StringFacts.

(** ** The monad *)

Section MonadFacts.

Context {E : Env}.

Lemma bind_ok {A B} (m : M A) (f : A -> M B) st st' a :
  m st = (st', Ok a) -> bind m f st = f a st'.
Proof. unfold bind. now intros ->. Qed.

Lemma bind_throw {A B} (m : M A) (f : A -> M B) st st' e :
  m st = (st', Throw e) -> bind m f st = (st', Throw e).
Proof. unfold bind. now intros ->. Qed.

Lemma try_catch_ok {A} (m : M A) h st st' a :
  m st = (st', Ok a) -> try_catch m h st = (st', Ok a).
Proof. unfold try_catch. now intros ->. Qed.

Lemma try_catch_throw {A} (m : M A) h st st' e :
  m st = (st', Throw e) -> try_catch m h st = h e st'.
Proof. unfold try_catch. now intros ->. Qed.

Lemma getObject_run bucket key st w r :
  s3_getObject (world st) bucket key = (w, r) ->
  getObject bucket key st = (mkState w (trace st ++ [GetObject bucket key]), r).
Proof. unfold getObject. now intros ->. Qed.

Lemma putObject_run req st w r :
  s3_putObject (world st) req = (w, r) ->
  putObject req st = (mkState w (trace st ++ [PutObject req]), r).
Proof. unfold putObject. now intros ->. Qed.

Lemma metadata_run input st :
  metadata input st =
  (mkState (world st) (trace st ++ [SharpMetadata input]), sharp_metadata input).
Proof. reflexivity. Qed.

Lemma toBuffer_run input ops st :
  toBuffer input ops st =
  (mkState (world st) (trace st ++ [SharpToBuffer input ops]),
   sharp_toBuffer input ops).
Proof. reflexivity. Qed.

Lemma grows_at_same {A} P (m : M A) st r : m st = (st, r) -> grows_at P m st.
Proof.
  intros H. exists []. rewrite H. simpl. now rewrite app_nil_r.
Qed.

Lemma grows_ret {A} P (a : A) : grows P (ret a).
Proof. intros st. now apply grows_at_same with (r := Ok a). Qed.

Lemma grows_throw {A} P e : grows P (@throw E A e).
Proof. intros st. now apply grows_at_same with (r := Throw e). Qed.

Lemma grows_lift {A} P (r : result A) : grows P (lift r).
Proof. intros st. now apply grows_at_same with (r := r). Qed.

Lemma grows_emit P c : P c -> grows P (emit c).
Proof. intros H st. exists [c]. simpl. auto. Qed.

Lemma grows_at_bind {A B} P (m : M A) (f : A -> M B) st :
  grows_at P m st ->
  (forall st' a, m st = (st', Ok a) -> grows_at P (f a) st') ->
  grows_at P (bind m f) st.
Proof.
  intros (tr & Htr & Hall) Hf. unfold grows_at, bind.
  destruct (m st) as [st' [a|e]] eqn:Hm; simpl in Htr.
  - destruct (Hf st' a eq_refl) as (tr' & Htr' & Hall').
    exists (tr ++ tr'). rewrite Htr', Htr, app_assoc. split; [reflexivity|].
    apply Forall_app; auto.
  - exists tr. simpl. auto.
Qed.

Lemma grows_bind {A B} P (m : M A) (f : A -> M B) :
  grows P m -> (forall a, grows P (f a)) -> grows P (bind m f).
Proof. intros Hm Hf st. apply grows_at_bind; auto. intros; apply Hf. Qed.

Lemma grows_at_try_catch {A} P (m : M A) h st :
  grows_at P m st -> (forall e, grows P (h e)) -> grows_at P (try_catch m h) st.
Proof.
  intros (tr & Htr & Hall) Hh. unfold grows_at, try_catch.
  destruct (m st) as [st' [a|e]] eqn:Hm; simpl in Htr.
  - exists tr. simpl. auto.
  - destruct (Hh e st') as (tr' & Htr' & Hall').
    exists (tr ++ tr'). rewrite Htr', Htr, app_assoc. split; [reflexivity|].
    apply Forall_app; auto.
Qed.

Lemma grows_getObject P bucket key :
  P (GetObject bucket key) -> grows P (getObject bucket key).
Proof.
  intros H st. exists [GetObject bucket key]. unfold getObject.
  destruct (s3_getObject (world st) bucket key). simpl. auto.
Qed.

Lemma grows_putObject P req : P (PutObject req) -> grows P (putObject req).
Proof.
  intros H st. exists [PutObject req]. unfold putObject.
  destruct (s3_putObject (world st) req). simpl. auto.
Qed.

Lemma grows_metadata P input :
  P (SharpMetadata input) -> grows P (metadata input).
Proof. intros H st. exists [SharpMetadata input]. simpl. auto. Qed.

Lemma grows_toBuffer P input ops :
  P (SharpToBuffer input ops) -> grows P (toBuffer input ops).
Proof. intros H st. exists [SharpToBuffer input ops]. simpl. auto. Qed.

Lemma settle_all_grows {A} P (ms : list (M A)) :
  Forall (grows P) ms ->
  forall st, exists tr,
    trace (fst (settle_all ms st)) = trace st ++ tr /\ Forall P tr.
Proof.
  induction 1 as [|m ms Hm _ IH]; intros st; simpl.
  - exists []. now rewrite app_nil_r.
  - destruct (Hm st) as (tr & Htr & Hall).
    destruct (m st) as [st1 r]. simpl in Htr.
    destruct (IH st1) as (tr' & Htr' & Hall').
    destruct (settle_all ms st1) as [st2 rs]. simpl in *.
    exists (tr ++ tr'). rewrite Htr', Htr, app_assoc. split; [reflexivity|].
    apply Forall_app; auto.
Qed.

Lemma grows_Promise_all {A} P (ms : list (M A)) :
  Forall (grows P) ms -> grows P (Promise_all ms).
Proof.
  intros H st. destruct (settle_all_grows P ms H st) as (tr & Htr & Hall).
  exists tr. unfold Promise_all.
  destruct (settle_all ms st). simpl in *. auto.
Qed.

Lemma grows_for_of {A} P (xs : list A) body :
  (forall x, grows P (body x)) -> grows P (for_of xs body).
Proof.
  intros H. induction xs as [|x xs IH]; simpl.
  - apply grows_ret.
  - apply grows_bind; auto.
Qed.

(** A loop stops at the first turn that throws. *)
Lemma for_of_throw {A} (pre post : list A) x body st st1 st2 e :
  for_of pre body st = (st1, Ok tt) ->
  body x st1 = (st2, Throw e) ->
  for_of (pre ++ x :: post) body st = (st2, Throw e).
Proof.
  revert st. induction pre as [|y pre IH]; intros st Hpre Hx; simpl in *.
  - injection Hpre as <-. now apply bind_throw.
  - unfold bind in *. destruct (body y st) as [st' [[]|e']]; [|discriminate].
    now apply IH.
Qed.

Lemma for_of_cons_ok {A} (xs : list A) x body st st1 :
  body x st = (st1, Ok tt) ->
  for_of (x :: xs) body st = for_of xs body st1.
Proof. intros H. simpl. now rewrite (bind_ok _ _ _ _ _ H). Qed.

End MonadFacts.

(** ** The event shapes *)

Section Events.

Context {E : Env}.

Lemma get_prop_truthy v k :
  truthy v = true -> get_prop v k = Ok (Spec.field v k).
Proof. destruct v; simpl; intros; congruence. Qed.

Lemma field_falsy v k : truthy v = false -> truthy (Spec.field v k) = false.
Proof. destruct v; simpl; intros; congruence. Qed.

(** Selecting the records reads the event and nothing else: it never
    throws and makes no call. *)
Lemma select_records_pure event st :
  select_records event st = (st, Ok (selected event)).
Proof.
  unfold select_records, selected, Spec.classify, has_detail, bind, lift, ret.
  cbn [get_prop].
  set (detail := lookup event "detail").
  destruct (truthy detail) eqn:Hd.
  - rewrite (get_prop_truthy _ "bucket" Hd).
    destruct (truthy (Spec.field detail "bucket")) eqn:Hb.
    + rewrite (get_prop_truthy _ "object" Hd).
      destruct (truthy (Spec.field detail "object")) eqn:Ho; cbn [andb].
      * rewrite (get_prop_truthy _ "name" Hb), (get_prop_truthy _ "key" Ho).
        reflexivity.
      * destruct (lookup event "Records") as [| | | | |[|r rs]|]; try reflexivity;
          destruct (lookup event "test") as [| |[|]| | | |]; reflexivity.
    + cbn [andb].
      destruct (lookup event "Records") as [| | | | |[|r rs]|]; try reflexivity;
        destruct (lookup event "test") as [| |[|]| | | |]; reflexivity.
  - rewrite (field_falsy _ "bucket" Hd). cbn [andb].
    destruct (lookup event "Records") as [| | | | |[|r rs]|]; try reflexivity;
      destruct (lookup event "test") as [| |[|]| | | |]; reflexivity.
Qed.

Lemma handler_of_records event records st :
  selected event = inr records -> records <> [] ->
  handler event st =
  bind (for_of records process_record)
       (fun _ => ret (message_response "Images processed successfully")) st.
Proof.
  intros Hsel Hne. unfold handler.
  rewrite (bind_ok _ _ _ _ _ (select_records_pure event st)), Hsel.
  destruct records; [congruence | reflexivity].
Qed.

End Events.

(** ** The calls of one item *)

Section ItemCalls.

Context {E : Env}.

Lemma Forall_map_grows {A B} P (f : A -> M B) (l : list A) :
  (forall x, grows P (f x)) -> Forall (grows P) (map f l).
Proof. intros H. induction l; simpl; constructor; auto. Qed.

Lemma optimizeImage_grows P input extension :
  (forall c, is_s3_call c = false -> P c) ->
  grows P (optimizeImage input extension).
Proof.
  intros HP. unfold optimizeImage.
  apply grows_bind; [apply grows_metadata, HP; reflexivity|].
  intros md.
  repeat match goal with
         | |- grows _ (if ?b then _ else _) => destruct b
         end;
    try (apply grows_toBuffer, HP; reflexivity).
  apply grows_throw.
Qed.

Lemma fetched_at_getObject bucket key st st' obj :
  getObject bucket key st = (st', Ok obj) ->
  fetched_at bucket key st = Some obj.
Proof.
  unfold getObject, fetched_at.
  destruct (s3_getObject (world st) bucket key) as [w r]. simpl.
  intros H. injection H as _ ->. reflexivity.
Qed.

(** Every call of [process_item] is the fetch of the item, a codec call,
    a console line, or one of the four kinds of writes, and those only
    for an eligible item. *)
Lemma process_item_calls bucket key st :
  grows_at (item_call bucket key (fetched_at bucket key st))
           (process_item bucket key) st.
Proof.
  unfold process_item.
  destruct (JsString.startsWith key "original/") eqn:Hp; cbn [negb];
    [|apply grows_emit; exact I].
  apply grows_at_try_catch.
  2:{ intros e. apply grows_bind; [apply grows_emit; exact I|].
      intros _. apply grows_throw. }
  unfold process_object.
  apply grows_at_bind; [apply grows_getObject; simpl; auto|].
  intros st' obj Hget. rewrite (fetched_at_getObject _ _ _ _ _ Hget).
  clear Hget st. revert st'.
  match goal with
  | |- forall st', grows_at ?P ?m st' => change (grows P m)
  end.
  set (filename := JsString.replace "original/" EmptyString key).
  assert (Hcodec : forall c, is_s3_call c = false ->
                             item_call bucket key (Some obj) c).
  { intros [] Hc; try discriminate; exact I. }
  destruct (includes supportedImageFormats (extension_of filename)) eqn:Hinc;
    cbn [negb]; [|apply grows_emit; exact I].
  destruct (JsString.startsWith (or_else (ContentType obj) EmptyString) "image/") eqn:Hct;
    cbn [negb]; [|apply grows_emit; exact I].
  assert (Hel : Spec.eligible key (ContentType obj) = true).
  { unfold Spec.eligible, Spec.first_failed. fold filename.
    now rewrite Hp, Hinc, Hct. }
  assert (Hput : forall req, variant_request bucket filename obj req ->
                             grows (item_call bucket key (Some obj))
                                   (putObject req)).
  { intros req Hreq. apply grows_putObject. simpl. eauto. }
  apply grows_bind; [now apply optimizeImage_grows|]. intros optimizedBuffer.
  apply grows_bind; [apply grows_toBuffer, Hcodec; reflexivity|].
  intros thumbnailBuffer.
  apply grows_bind.
  { apply grows_Promise_all, Forall_map_grows. intros size.
    apply grows_bind; [apply grows_toBuffer, Hcodec; reflexivity|].
    intros; apply grows_ret. }
  intros resizedImages.
  apply grows_bind; [apply Hput; constructor|]. intros _.
  apply grows_bind; [apply Hput; constructor|]. intros _.
  apply grows_bind.
  { apply grows_Promise_all, Forall_map_grows. intros resized.
    apply Hput; constructor. }
  intros _.
  apply grows_bind; [apply grows_toBuffer, Hcodec; reflexivity|].
  intros webpBuffer. apply Hput; constructor.
Qed.

End ItemCalls.

(** ** The handler as a whole *)

Section HandlerFacts.

Context {E : Env}.

Lemma grows_at_impl {A} (P Q : call -> Prop) (m : M A) st :
  (forall c, P c -> Q c) -> grows_at P m st -> grows_at Q m st.
Proof.
  intros H (tr & Htr & Hall). exists tr. split; [exact Htr|].
  eapply Forall_impl; eauto.
Qed.

Lemma variant_key_not_original bucket filename obj req :
  variant_request bucket filename obj req ->
  JsString.startsWith (put_Key req) "original/" = false.
Proof. destruct 1; reflexivity. Qed.

Lemma item_call_preserves bucket key fetched c :
  item_call bucket key fetched c -> preserves_originals c.
Proof.
  destruct c; simpl; try tauto.
  - intros (_ & -> & H). exact H.
  - intros (obj & _ & _ & H). eapply variant_key_not_original; eauto.
Qed.

Lemma process_record_preserves record :
  grows preserves_originals (process_record record).
Proof.
  unfold process_record. apply grows_bind; [apply grows_lift|].
  intros [bucket key] st. simpl.
  eapply grows_at_impl; [|apply process_item_calls].
  apply item_call_preserves.
Qed.

Lemma handler_preserves event : grows preserves_originals (handler event).
Proof.
  intros st. unfold handler. apply grows_at_bind.
  - eapply grows_at_same. apply select_records_pure.
  - intros st' [response|records] _; [apply grows_ret|].
    destruct records; [apply grows_ret|].
    apply grows_bind; [|intros; apply grows_ret].
    apply grows_for_of, process_record_preserves.
Qed.

(** C2: whatever the event and the state of the world, the handler
    issues no delete, writes to no key that starts with [original/], and
    never writes to a key it has fetched: the source objects are neither
    overwritten nor removed. *)
Theorem originals_never_touched (event : object) (w : World) :
  let tr := trace (fst (run (handler event) w)) in
  (forall b k, ~ In (DeleteObject b k) tr) /\
  (forall r, In (PutObject r) tr ->
             JsString.startsWith (put_Key r) "original/" = false) /\
  (forall b k r, In (GetObject b k) tr -> In (PutObject r) tr ->
                 put_Key r <> k).
Proof.
  destruct (handler_preserves event (mkState w [])) as (tr & Htr & Hall).
  unfold run. simpl in Htr. rewrite Htr. cbn zeta.
  rewrite Forall_forall in Hall.
  assert (Hput : forall r, In (PutObject r) tr ->
                           JsString.startsWith (put_Key r) "original/" = false).
  { intros r Hr. exact (Hall _ Hr). }
  split; [|split].
  - intros b k Hin. exact (Hall _ Hin).
  - exact Hput.
  - intros b k r Hg Hp Heq.
    pose proof (Hall _ Hg) as Hk. pose proof (Hput _ Hp) as Hr.
    change (JsString.startsWith k "original/" = true) in Hk.
    rewrite Heq in Hr. congruence.
Qed.

Lemma classify_batch_nonempty event rs :
  Spec.classify event = Spec.BatchNotification rs -> rs <> [].
Proof.
  unfold Spec.classify.
  destruct (truthy _ && truthy _); [discriminate|].
  destruct (lookup event "Records") as [| | | | |[|r l]|];
    try (destruct (lookup event "test") as [| |[|]| | | |]; discriminate).
  intros H. injection H as <-. discriminate.
Qed.

(** C4: the event is classified in a fixed order.  With a [detail.bucket]
    and a [detail.object] the handler processes exactly one work item;
    otherwise with a non-empty [Records] array it processes the records
    in their order; otherwise with [test === true] it returns status 200
    and an informational message without any call; any other event gets
    status 400 with the error and the list of the top-level keys of the
    event. *)
Theorem event_classification (event : object) (st : state) :
  handler event st =
  match Spec.classify event with
  | Spec.DirectNotification bucket_name object_key =>
      bind (for_of [Spec.work_item bucket_name object_key] process_record)
           (fun _ => ret (message_response "Images processed successfully"))
           st
  | Spec.BatchNotification records =>
      bind (for_of records process_record)
           (fun _ => ret (message_response "Images processed successfully"))
           st
  | Spec.Probe =>
      (st, Ok (mkResponse 200
                 (VObject
                    [("message",
                      VString "Lambda function is working. Configure S3 trigger or EventBridge to process images.");
                     ("note",
                      VString "This function processes images when triggered by S3 events in the 'original/' folder.")])))
  | Spec.Unrecognized =>
      (st, Ok (mkResponse 400
                 (VObject
                    [("error",
                      VString "Invalid event format. Expected S3 event or EventBridge event.");
                     ("received", VArray (map VString (map fst event)))])))
  end.
Proof.
  unfold handler.
  rewrite (bind_ok _ _ _ _ _ (select_records_pure event st)).
  unfold selected.
  destruct (Spec.classify event) as [b k|rs| |] eqn:Hc; try reflexivity.
  apply classify_batch_nonempty in Hc. destruct rs; [congruence|reflexivity].
Qed.

End HandlerFacts.

(** ** Runs of one item *)

Section Runs.

Context {E : Env}.

Lemma written_keys_app a b :
  written_keys (a ++ b) = (written_keys a ++ written_keys b)%list.
Proof.
  unfold written_keys, put_requests. now rewrite flat_map_app, map_app.
Qed.

Lemma toBuffer_ok input ops out st :
  sharp_toBuffer input ops = Ok out ->
  toBuffer input ops st =
  (mkState (world st) (trace st ++ [SharpToBuffer input ops]), Ok out).
Proof. intros H. now rewrite toBuffer_run, H. Qed.

Lemma Promise_all_nil {A} st : @Promise_all E A [] st = (st, Ok []).
Proof. reflexivity. Qed.

Lemma Promise_all_cons_ok {A} (m : M A) ms st st1 st2 a l :
  m st = (st1, Ok a) ->
  Promise_all ms st1 = (st2, Ok l) ->
  Promise_all (m :: ms) st = (st2, Ok (a :: l)).
Proof.
  unfold Promise_all. simpl. intros ->.
  destruct (settle_all ms st1) as [st' rs]. intros H.
  injection H as -> H. simpl. now rewrite H.
Qed.

Lemma optimizeImage_run input extension md st :
  sharp_metadata input = Ok md ->
  In extension ["jpg"; "jpeg"; "png"; "webp"] ->
  exists ops,
    optimizeImage input extension st =
    (mkState (world st)
             (trace st ++ [SharpMetadata input; SharpToBuffer input ops]),
     sharp_toBuffer input ops).
Proof.
  intros Hmeta Hext. unfold optimizeImage, bind.
  rewrite metadata_run, Hmeta.
  simpl in Hext. decompose [or] Hext; try contradiction; subst extension;
    cbn [String.eqb Ascii.eqb Bool.eqb orb]; rewrite toBuffer_run;
    cbn [world trace]; rewrite <- app_assoc; eexists; reflexivity.
Qed.


Lemma supported_codec_formats extension :
  In extension ["jpg"; "jpeg"; "png"; "webp"] ->
  includes supportedImageFormats extension = true.
Proof.
  simpl. intros H. decompose [or] H; try contradiction; subst; reflexivity.
Qed.

Lemma process_object_success bucket name ext obj md enc after_put st w1 :
  JsString.nonempty ext = true ->
  JsString.no_dot ext = true ->
  In (JsString.toLowerCase ext) ["jpg"; "jpeg"; "png"; "webp"] ->
  s3_getObject (world st) bucket ("original/" ++ name ++ "." ++ ext)
  = (w1, Ok obj) ->
  JsString.startsWith (or_else (ContentType obj) EmptyString) "image/" = true ->
  sharp_metadata (Body obj) = Ok md ->
  (forall ops, sharp_toBuffer (Body obj) ops = Ok (enc ops)) ->
  (forall w req, s3_putObject w req = (after_put w req, Ok tt)) ->
  exists st',
    process_object bucket ("original/" ++ name ++ "." ++ ext) st = (st', Ok tt) /\
    written_keys (trace st')
    = (written_keys (trace st) ++ Spec.destination_keys name ext)%list /\
    exists rest,
      trace st'
      = (trace st ++ GetObject bucket ("original/" ++ name ++ "." ++ ext) :: rest)%list.
Proof.
  intros Hne Hnd Hext Hget Hct Hmeta Hcodec Hput.
  unfold process_object.
  rewrite (bind_ok _ _ _ _ _ (getObject_run _ _ _ _ _ Hget)).
  rewrite replace_prefix.
  change (EmptyString ++ name ++ "." ++ ext)%string with (name ++ "." ++ ext)%string.
  unfold extension_of. rewrite (pop_split_ext _ _ Hnd).
  rewrite (replace_ext_webp_app _ _ Hne Hnd).
  rewrite (supported_codec_formats _ Hext), Hct. cbn [negb].
  match goal with
  | |- context [bind (optimizeImage ?i ?e) ?f ?s] =>
     destruct (optimizeImage_run i e md s Hmeta Hext) as (ops & Hrun);
     rewrite Hcodec in Hrun; rewrite (bind_ok _ _ _ _ _ Hrun); clear Hrun
  end.
  cbn [world trace].
  unfold createThumbnail, createResizedImage, convertToWebP.
  erewrite bind_ok by (apply toBuffer_ok, Hcodec). cbn [world trace].
  unfold sizes. cbn [map fst snd].
  erewrite bind_ok.
  2:{ repeat (eapply Promise_all_cons_ok;
              [erewrite bind_ok by (apply toBuffer_ok, Hcodec); reflexivity|]).
      apply Promise_all_nil. }
  cbn [world trace map fst snd].
  erewrite bind_ok by (apply putObject_run, Hput). cbn [world trace].
  erewrite bind_ok by (apply putObject_run, Hput). cbn [world trace].
  erewrite bind_ok.
  2:{ repeat (eapply Promise_all_cons_ok; [apply putObject_run, Hput|]).
      apply Promise_all_nil. }
  cbn [world trace].
  erewrite bind_ok by (apply toBuffer_ok, Hcodec). cbn [world trace].
  erewrite putObject_run by apply Hput.
  eexists. split; [reflexivity|]. cbn [trace]. split.
  - rewrite !written_keys_app.
    cbn [written_keys put_requests flat_map map app put_Key].
    rewrite !app_nil_r, !(replace_ext_suffix_app _ _ _ Hne Hnd).
    rewrite <- !List.app_assoc. reflexivity.
  - rewrite <- !List.app_assoc. eexists. reflexivity.
Qed.

Lemma process_item_success bucket name ext obj md enc after_put st w1 :
  JsString.nonempty ext = true ->
  JsString.no_dot ext = true ->
  In (JsString.toLowerCase ext) ["jpg"; "jpeg"; "png"; "webp"] ->
  s3_getObject (world st) bucket ("original/" ++ name ++ "." ++ ext)
  = (w1, Ok obj) ->
  JsString.startsWith (or_else (ContentType obj) EmptyString) "image/" = true ->
  sharp_metadata (Body obj) = Ok md ->
  (forall ops, sharp_toBuffer (Body obj) ops = Ok (enc ops)) ->
  (forall w req, s3_putObject w req = (after_put w req, Ok tt)) ->
  exists st',
    process_item bucket ("original/" ++ name ++ "." ++ ext) st = (st', Ok tt) /\
    written_keys (trace st')
    = (written_keys (trace st) ++ Spec.destination_keys name ext)%list /\
    exists rest,
      trace st'
      = (trace st ++ GetObject bucket ("original/" ++ name ++ "." ++ ext) :: rest)%list.
Proof.
  intros Hne Hnd Hext Hget Hct Hmeta Hcodec Hput.
  destruct (process_object_success bucket name ext obj md enc after_put st w1)
    as (st' & Hrun & Hkeys); auto.
  exists st'. split; [|exact Hkeys].
  unfold process_item. rewrite startsWith_app. cbn [negb].
  now apply try_catch_ok.
Qed.

Lemma process_item_skip_prefix bucket key st :
  JsString.startsWith key "original/" = false ->
  process_item bucket key st =
  (mkState (world st)
           (trace st ++ [ConsoleLog "Skipping non-original file:" key]),
   Ok tt).
Proof. intros H. unfold process_item. now rewrite H. Qed.

Lemma process_item_skip_fetched bucket key st w1 obj c :
  s3_getObject (world st) bucket key = (w1, Ok obj) ->
  Spec.first_failed key (ContentType obj) = Some c ->
  c <> Spec.PrefixCheck ->
  process_item bucket key st =
  (mkState w1 (trace st ++ [GetObject bucket key;
                            Spec.skip_line c key (ContentType obj)]),
   Ok tt).
Proof.
  intros Hget Hc Hnp. unfold Spec.first_failed in Hc.
  unfold process_item, process_object.
  destruct (JsString.startsWith key "original/"); cbn [negb] in *;
    [|congruence].
  rewrite (try_catch_ok _ _ st
             (mkState w1 (trace st ++ [GetObject bucket key;
                                       Spec.skip_line c key (ContentType obj)]))
             tt); [reflexivity|].
  rewrite (bind_ok _ _ _ _ _ (getObject_run _ _ _ _ _ Hget)).
  destruct (includes supportedImageFormats _); cbn [negb] in *.
  - destruct (JsString.startsWith (or_else (ContentType obj) EmptyString) "image/");
      cbn [negb] in *; [discriminate|].
    injection Hc as <-. unfold console_log, emit. cbn [world trace Spec.skip_line].
    now rewrite <- List.app_assoc.
  - injection Hc as <-. unfold console_log, emit. cbn [world trace Spec.skip_line].
    now rewrite <- List.app_assoc.
Qed.

Lemma process_record_target record bucket key st :
  record_target record = Ok (bucket, key) ->
  process_record record st = process_item bucket key st.
Proof. intros H. unfold process_record, bind, lift. now rewrite H. Qed.

Lemma record_target_describes record bucket rawkey :
  describes record bucket rawkey ->
  record_target record =
  and_then (decodeURIComponent (JsString.plus_to_space rawkey))
           (fun key => Ok (bucket, key)).
Proof.
  intros (r & s & b & o & -> & Hs & Hb & Hn & Ho & Hk).
  unfold record_target. cbn [get_prop and_then]. rewrite Hs.
  cbn [get_prop and_then]. rewrite Hb. cbn [get_prop and_then]. rewrite Hn, Ho.
  cbn [get_prop and_then]. rewrite Hk. reflexivity.
Qed.

End Runs.

(** ** The four kinds of failure of one item *)

Section Failures.

Context {E : Env}.

Lemma eligible_checks key declared :
  Spec.eligible key declared = true ->
  JsString.startsWith key "original/" = true /\
  includes supportedImageFormats
           (extension_of (JsString.replace "original/" EmptyString key)) = true /\
  JsString.startsWith (or_else declared EmptyString) "image/" = true.
Proof.
  unfold Spec.eligible, Spec.first_failed.
  destruct (JsString.startsWith key "original/"); [|discriminate].
  destruct (includes _ _); [|discriminate].
  destruct (JsString.startsWith (or_else declared EmptyString) "image/");
    [auto|discriminate].
Qed.

(** The fetch fails. *)
Lemma fetch_failure_throws bucket key st w1 e :
  s3_getObject (world st) bucket key = (w1, Throw e) ->
  process_object bucket key st =
  (mkState w1 (trace st ++ [GetObject bucket key]), Throw e).
Proof.
  intros Hget. unfold process_object.
  now rewrite (bind_throw _ _ _ _ _ (getObject_run _ _ _ _ _ Hget)).
Qed.

(** The codec cannot decode the source. *)
Lemma decode_failure_throws bucket key st w1 obj e :
  s3_getObject (world st) bucket key = (w1, Ok obj) ->
  Spec.eligible key (ContentType obj) = true ->
  sharp_metadata (Body obj) = Throw e ->
  process_object bucket key st =
  (mkState w1 (trace st ++ [GetObject bucket key; SharpMetadata (Body obj)]),
   Throw e).
Proof.
  intros Hget Hel Hmeta. apply eligible_checks in Hel as (_ & Hinc & Hct).
  unfold process_object.
  rewrite (bind_ok _ _ _ _ _ (getObject_run _ _ _ _ _ Hget)).
  rewrite Hinc, Hct. cbn [negb]. apply bind_throw.
  unfold optimizeImage. apply bind_throw.
  rewrite metadata_run, Hmeta. cbn [world trace].
  now rewrite <- List.app_assoc.
Qed.

(** The codec cannot encode the optimized variant. *)
Lemma transform_failure_throws bucket key st w1 obj md e :
  s3_getObject (world st) bucket key = (w1, Ok obj) ->
  Spec.eligible key (ContentType obj) = true ->
  In (extension_of (JsString.replace "original/" EmptyString key))
     ["jpg"; "jpeg"; "png"; "webp"] ->
  sharp_metadata (Body obj) = Ok md ->
  (forall ops, sharp_toBuffer (Body obj) ops = Throw e) ->
  exists st',
    process_object bucket key st = (st', Throw e) /\
    written_keys (trace st') = written_keys (trace st).
Proof.
  intros Hget Hel Hext Hmeta Hcodec.
  apply eligible_checks in Hel as (_ & Hinc & Hct).
  unfold process_object.
  rewrite (bind_ok _ _ _ _ _ (getObject_run _ _ _ _ _ Hget)).
  rewrite Hinc, Hct. cbn [negb].
  match goal with
  | |- context [bind (optimizeImage ?i ?x) ?f ?s] =>
      destruct (optimizeImage_run i x md s Hmeta Hext) as (ops & Hrun);
      rewrite Hcodec in Hrun; rewrite (bind_throw _ _ _ _ _ Hrun)
  end.
  eexists. split; [reflexivity|]. cbn [world trace].
  rewrite !written_keys_app. cbn. now rewrite !app_nil_r.
Qed.

(** The first write is refused: nothing else is written. *)
Lemma write_failure_throws bucket key st w1 w2 obj md enc e :
  s3_getObject (world st) bucket key = (w1, Ok obj) ->
  Spec.eligible key (ContentType obj) = true ->
  In (extension_of (JsString.replace "original/" EmptyString key))
     ["jpg"; "jpeg"; "png"; "webp"] ->
  sharp_metadata (Body obj) = Ok md ->
  (forall ops, sharp_toBuffer (Body obj) ops = Ok (enc ops)) ->
  (forall req, s3_putObject w1 req = (w2, Throw e)) ->
  exists st',
    process_object bucket key st = (st', Throw e) /\
    written_keys (trace st')
    = (written_keys (trace st)
       ++ [("optimized/" ++ JsString.replace "original/" EmptyString key)%string])%list.
Proof.
  intros Hget Hel Hext Hmeta Hcodec Hput.
  apply eligible_checks in Hel as (_ & Hinc & Hct).
  unfold process_object.
  rewrite (bind_ok _ _ _ _ _ (getObject_run _ _ _ _ _ Hget)).
  rewrite Hinc, Hct. cbn [negb].
  match goal with
  | |- context [bind (optimizeImage ?i ?x) ?f ?s] =>
      destruct (optimizeImage_run i x md s Hmeta Hext) as (ops & Hrun);
      rewrite Hcodec in Hrun; rewrite (bind_ok _ _ _ _ _ Hrun); clear Hrun
  end.
  cbn [world trace]. unfold createThumbnail, createResizedImage.
  erewrite bind_ok by (apply toBuffer_ok, Hcodec). cbn [world trace].
  unfold sizes. cbn [map fst snd].
  erewrite bind_ok.
  2:{ repeat (eapply Promise_all_cons_ok;
              [erewrite bind_ok by (apply toBuffer_ok, Hcodec); reflexivity|]).
      apply Promise_all_nil. }
  cbn [world trace map fst snd].
  erewrite bind_throw by (apply putObject_run, Hput).
  eexists. split; [reflexivity|]. cbn [world trace].
  rewrite !written_keys_app. cbn. now rewrite !app_nil_r.
Qed.

End Failures.

(** * The claims *)

Section Claims.

Context {E : Env}.

(** C1 (amended): for a work item whose key is [original/<name>.<ext>],
    whose lower-cased extension is jpg, jpeg, png or webp, whose declared
    content type starts with [image/], and for which the fetch, the
    transforms and the writes succeed, the handler writes exactly six
    objects, at [optimized/<name>.<ext>], [thumbnails/<name>.<ext>],
    [sizes/<name>-small.<ext>], [sizes/<name>-medium.<ext>],
    [sizes/<name>-large.<ext>] and [webp/<name>.webp], the extension kept
    as it is written, and writes to no other key. *)
Theorem six_variants_written
  (bucket : value) (name ext : string) (obj : S3Object) (md : ImageMetadata)
  (enc : list sharp_op -> buffer) (after_put : World -> PutRequest -> World)
  (st : state) (w1 : World) :
  JsString.nonempty ext = true ->
  JsString.no_dot ext = true ->
  In (JsString.toLowerCase ext) ["jpg"; "jpeg"; "png"; "webp"] ->
  s3_getObject (world st) bucket ("original/" ++ name ++ "." ++ ext)
  = (w1, Ok obj) ->
  JsString.startsWith (or_else (ContentType obj) EmptyString) "image/" = true ->
  sharp_metadata (Body obj) = Ok md ->
  (forall ops, sharp_toBuffer (Body obj) ops = Ok (enc ops)) ->
  (forall w req, s3_putObject w req = (after_put w req, Ok tt)) ->
  exists st',
    process_item bucket ("original/" ++ name ++ "." ++ ext) st = (st', Ok tt) /\
    written_keys (trace st')
    = (written_keys (trace st) ++ Spec.destination_keys name ext)%list.
Proof.
  intros Hne Hnd Hext Hget Hct Hmeta Hcodec Hput.
  destruct (process_item_success bucket name ext obj md enc after_put st w1)
    as (st' & Hrun & Hkeys & _); eauto.
Qed.

(** C3: eligibility is tested in the order prefix, extension, content
    type, and the first check that fails decides.  An item whose key does
    not start with [original/] is skipped before anything is fetched; an
    item that fails the extension or the content-type check is skipped
    after the fetch.  In each case the loop goes on with the next record
    and the skipped item causes no write, only the console line of the
    check that failed. *)
Theorem ineligible_item_skipped
  (record : value) (rest : list value) (bucket : value) (key : string)
  (declared : option string) (c : Spec.check) (st : state) :
  record_target record = Ok (bucket, key) ->
  Spec.first_failed key declared = Some c ->
  match c with
  | Spec.PrefixCheck =>
      for_of (record :: rest) process_record st =
      for_of rest process_record
             (mkState (world st)
                      (trace st ++ [Spec.skip_line c key declared]))
  | _ =>
      forall w1 body,
        s3_getObject (world st) bucket key
        = (w1, Ok (mkS3Object body declared)) ->
        for_of (record :: rest) process_record st =
        for_of rest process_record
               (mkState w1 (trace st ++ [GetObject bucket key;
                                         Spec.skip_line c key declared]))
  end.
Proof.
  intros Htarget Hc.
  destruct c.
  - apply for_of_cons_ok. rewrite (process_record_target _ _ _ _ Htarget).
    apply process_item_skip_prefix.
    unfold Spec.first_failed in Hc.
    destruct (JsString.startsWith key "original/"); [|reflexivity].
    cbn [negb] in Hc.
    destruct (includes _ _); cbn [negb] in Hc; [|discriminate].
    destruct (JsString.startsWith (or_else declared EmptyString) "image/");
      discriminate.
  - intros w1 body Hget. apply for_of_cons_ok.
    rewrite (process_record_target _ _ _ _ Htarget).
    now apply (process_item_skip_fetched _ _ _ _ _ _ Hget).
  - intros w1 body Hget. apply for_of_cons_ok.
    rewrite (process_record_target _ _ _ _ Htarget).
    now apply (process_item_skip_fetched _ _ _ _ _ _ Hget).
Qed.

(** When the guarded block of a record throws, the handler logs the error
    and throws it again: the run ends with that error, in the state the
    failing record left. *)
Lemma thrown_block_is_reraised
  (event : object) (pre post : list value) (record bucket : value)
  (key : string) (w : World) (st1 st2 : state) (e : error) :
  selected event = inr (pre ++ record :: post) ->
  run (for_of pre process_record) w = (st1, Ok tt) ->
  record_target record = Ok (bucket, key) ->
  JsString.startsWith key "original/" = true ->
  process_object bucket key st1 = (st2, Throw e) ->
  run (handler event) w =
  (mkState (world st2)
           (trace st2 ++ [ConsoleError ("Error processing " ++ key ++ ":") e]),
   Throw e).
Proof.
  intros Hsel Hpre Htarget Hprefix Hthrow. unfold run in *.
  rewrite (handler_of_records _ _ _ Hsel) by now destruct pre.
  apply bind_throw. eapply for_of_throw; [exact Hpre|].
  rewrite (process_record_target _ _ _ _ Htarget).
  unfold process_item. rewrite Hprefix. cbn [negb].
  rewrite (try_catch_throw _ _ _ _ _ Hthrow). reflexivity.
Qed.


Lemma eligible_declared key declared :
  Spec.eligible key declared = true ->
  exists c, declared = Some c /\ forall d, or_else declared d = c.
Proof.
  unfold Spec.eligible, Spec.first_failed.
  destruct (negb (JsString.startsWith key "original/")); [discriminate|].
  destruct (negb (includes _ _)); [discriminate|].
  destruct declared as [c|]; simpl; [|discriminate].
  destruct c as [|a c]; simpl; [discriminate|].
  intros _. exists (String a c). auto.
Qed.

Lemma content_type_of_format_eq format :
  Spec.content_type_of_format format = ("image/" ++ format)%string.
Proof.
  unfold Spec.content_type_of_format.
  destruct (String.eqb_spec format "jpeg"); [subst|]; reflexivity.
Qed.

Lemma content_type_of_extension_eq extension :
  Spec.content_type_of_extension extension
  = ("image/" ++ format_of extension)%string.
Proof.
  unfold Spec.content_type_of_extension, format_of.
  destruct (String.eqb_spec extension "jpg"); [reflexivity|].
  destruct (String.eqb_spec extension "jpeg"); [subst|]; reflexivity.
Qed.

(** Every write of an item is one of the four kinds of requests, made
    for the object that was fetched. *)
Lemma process_item_puts bucket key w r :
  In (PutObject r) (trace (fst (run (process_item bucket key) w))) ->
  exists obj,
    snd (s3_getObject w bucket key) = Ok obj /\
    Spec.eligible key (ContentType obj) = true /\
    variant_request bucket (JsString.replace "original/" EmptyString key) obj r.
Proof.
  intros Hin.
  destruct (process_item_calls bucket key (mkState w [])) as (tr & Htr & Hall).
  unfold run in Hin. rewrite Htr in Hin. simpl in Hin.
  rewrite Forall_forall in Hall. apply Hall in Hin.
  destruct Hin as (obj & Hf & Hel & Hreq). exists obj.
  split; [|auto]. unfold fetched_at in Hf. simpl in Hf.
  destruct (snd (s3_getObject w bucket key)); congruence.
Qed.

(** C7 (amended): the content type stored with the thumbnail, the three
    sized variants and the webp variant is that of the target format
    alone, [image/jpeg] for jpeg and [image/<format>] otherwise; the
    optimized variant is stored with the content type declared by the
    source object. *)
Theorem stored_content_types
  (bucket : value) (key : string) (w w1 : World) (obj : S3Object)
  (r : PutRequest) :
  s3_getObject w bucket key = (w1, Ok obj) ->
  In (PutObject r) (trace (fst (run (process_item bucket key) w))) ->
  stored_type (extension_of (JsString.replace "original/" EmptyString key))
              (ContentType obj) r.
Proof.
  intros Hget Hin.
  destruct (process_item_puts _ _ _ _ Hin) as (obj' & Hf & Hel & Hreq).
  rewrite Hget in Hf. simpl in Hf. injection Hf as <-.
  destruct (eligible_declared _ _ Hel) as (c & Hc & Hor).
  unfold stored_type. rewrite !content_type_of_format_eq.
  destruct Hreq; cbn [put_Key put_ContentType];
    (split; [|split]); try (intros [H|H]; discriminate H);
    try (intros H; discriminate H); intros _; try reflexivity.
  now rewrite Hor.
Qed.

(** C9: every write of a thumbnail or of a sized variant carries the
    content type [image/jpeg] when the extension of the source is jpg or
    jpeg and [image/<extension>] otherwise, and every write of a webp
    variant carries [image/webp]. *)
Theorem variant_content_types
  (bucket : value) (key : string) (w : World) (r : PutRequest) :
  In (PutObject r) (trace (fst (run (process_item bucket key) w))) ->
  variant_type (extension_of (JsString.replace "original/" EmptyString key)) r.
Proof.
  intros Hin.
  destruct (process_item_puts _ _ _ _ Hin) as (obj & _ & _ & Hreq).
  unfold variant_type. rewrite content_type_of_extension_eq.
  destruct Hreq; cbn [put_Key put_ContentType]; split;
    try (intros [H|H]; discriminate H); try (intros H; discriminate H);
    intros _; reflexivity.
Qed.

(** C10: the key of a record is first rewritten, every [+] into a space
    and then by [decodeURIComponent]; the rest of the turn works on the
    decoded key alone: the prefix test, the fetch, and the six
    destination keys. *)
Theorem key_decoded_first
  (record bucket : value) (rawkey key : string) (st : state) :
  describes record bucket rawkey ->
  decodeURIComponent (JsString.plus_to_space rawkey) = Ok key ->
  process_record record st = process_item bucket key st /\
  (JsString.startsWith key "original/" = false ->
   process_record record st =
   (mkState (world st)
            (trace st ++ [ConsoleLog "Skipping non-original file:" key]),
    Ok tt)) /\
  (forall name ext obj md enc after_put w1,
      key = ("original/" ++ name ++ "." ++ ext)%string ->
      JsString.nonempty ext = true ->
      JsString.no_dot ext = true ->
      In (JsString.toLowerCase ext) ["jpg"; "jpeg"; "png"; "webp"] ->
      s3_getObject (world st) bucket key = (w1, Ok obj) ->
      JsString.startsWith (or_else (ContentType obj) EmptyString) "image/" = true ->
      sharp_metadata (Body obj) = Ok md ->
      (forall ops, sharp_toBuffer (Body obj) ops = Ok (enc ops)) ->
      (forall w req, s3_putObject w req = (after_put w req, Ok tt)) ->
      exists st' calls,
        process_record record st = (st', Ok tt) /\
        trace st' = (trace st ++ GetObject bucket key :: calls)%list /\
        written_keys (trace st')
        = (written_keys (trace st) ++ Spec.destination_keys name ext)%list).
Proof.
  intros Hrec Hdec.
  assert (Htarget : record_target record = Ok (bucket, key)).
  { rewrite (record_target_describes _ _ _ Hrec), Hdec. reflexivity. }
  pose proof (process_record_target _ _ _ st Htarget) as Hrun.
  split; [exact Hrun|]. split.
  - intros Hp. rewrite Hrun. now apply process_item_skip_prefix.
  - intros name ext obj md enc after_put w1 -> Hne Hnd Hext Hget Hct Hmeta
           Hcodec Hput.
    destruct (process_item_success bucket name ext obj md enc after_put st w1)
      as (st' & Hitem & Hkeys & calls & Htrace); auto.
    exists st', calls. rewrite Hrun. auto.
Qed.

End Claims.

(** ** No error is swallowed *)

Section Accounting.

Context {E : Env}.

Lemma replay_app w a b :
  replay w (a ++ b) =
  (fst (replay (fst (replay w a)) b),
   snd (replay w a) ++ snd (replay (fst (replay w a)) b)).
Proof.
  revert w. induction a as [|c a IH]; intros w.
  - simpl. now destruct (replay w b).
  - cbn [app replay].
    destruct c;
      repeat match goal with
             | |- context [s3_getObject ?w ?b ?k] =>
                 destruct (s3_getObject w b k)
             | |- context [s3_putObject ?w ?r] => destruct (s3_putObject w r)
             end;
      try (rewrite IH;
           match goal with
           | |- context [replay ?w a] => destruct (replay w a)
           end; cbn [fst snd]; now rewrite <- ?List.app_assoc);
      apply IH.
Qed.

Lemma accounts_weaken {A} (m : M A) st :
  accounts true m st -> accounts false m st.
Proof.
  intros (tr & new & Htr & Hre & Hres). exists tr, new. repeat split; auto.
  destruct (snd (m st)); [auto|]. destruct Hres as [H|[H _]]; [auto|discriminate].
Qed.

Lemma accounts_silent {A} strict (m : M A) st a tr :
  m st = (mkState (world st) (trace st ++ tr), Ok a) ->
  replay (world st) tr = (world st, []) ->
  accounts strict m st.
Proof.
  intros Hm Hre. exists tr, []. rewrite Hm. cbn [fst snd world trace]. auto.
Qed.

Lemma accounts_ret {A} strict (a : A) st : accounts strict (ret a) st.
Proof.
  apply accounts_silent with (a := a) (tr := []); [|reflexivity].
  unfold ret. rewrite app_nil_r. now destruct st.
Qed.

Lemma accounts_lift {A} (r : result A) st : accounts false (lift r) st.
Proof.
  exists [], []. unfold lift. cbn [fst snd]. rewrite app_nil_r.
  repeat split. destruct r; auto.
Qed.

Lemma accounts_throw {A} e st : accounts false (@throw E A e) st.
Proof. apply (accounts_lift (Throw e)). Qed.

Lemma accounts_console_log strict label arg st :
  accounts strict (console_log label arg) st.
Proof. now apply accounts_silent with (a := tt) (tr := [ConsoleLog label arg]). Qed.

Lemma accounts_getObject bucket key st : accounts true (getObject bucket key) st.
Proof.
  exists [GetObject bucket key]. unfold getObject. cbn [replay].
  destruct (s3_getObject (world st) bucket key) as [w r].
  exists (errors_of r ++ []). cbn [fst snd world trace]. repeat split.
  destruct r; simpl; auto.
Qed.

Lemma accounts_putObject req st : accounts true (putObject req) st.
Proof.
  exists [PutObject req]. unfold putObject. cbn [replay].
  destruct (s3_putObject (world st) req) as [w r].
  exists (errors_of r ++ []). cbn [fst snd world trace]. repeat split.
  destruct r; simpl; auto.
Qed.

Lemma accounts_metadata input st : accounts true (metadata input) st.
Proof.
  exists [SharpMetadata input], (errors_of (sharp_metadata input) ++ []).
  rewrite metadata_run. cbn [fst snd world trace replay]. repeat split.
  destruct (sharp_metadata input); simpl; auto.
Qed.

Lemma accounts_toBuffer input ops st : accounts true (toBuffer input ops) st.
Proof.
  exists [SharpToBuffer input ops], (errors_of (sharp_toBuffer input ops) ++ []).
  rewrite toBuffer_run. cbn [fst snd world trace replay]. repeat split.
  destruct (sharp_toBuffer input ops); simpl; auto.
Qed.

Lemma accounts_bind {A B} strict (m : M A) (f : A -> M B) st :
  accounts strict m st ->
  (forall st' a, m st = (st', Ok a) -> accounts strict (f a) st') ->
  accounts strict (bind m f) st.
Proof.
  intros (tr & new & Htr & Hre & Hres) Hf. unfold accounts, bind.
  destruct (m st) as [st1 [a|e]] eqn:Hm; cbn [fst snd] in *.
  - subst new.
    destruct (Hf st1 a eq_refl) as (tr' & new' & Htr' & Hre' & Hres').
    exists (tr ++ tr'), new'. rewrite Htr', Htr, List.app_assoc.
    split; [reflexivity|]. split; [|exact Hres'].
    rewrite replay_app, Hre. cbn [fst snd]. now rewrite Hre'.
  - exists tr, new. auto.
Qed.

(** The [catch] block of the handler logs the error and throws it
    again. *)
Lemma accounts_rethrow {A} (m : M A) label st :
  accounts false m st ->
  accounts false
    (try_catch m (fun error => bind (emit (ConsoleError label error))
                                    (fun _ => throw error))) st.
Proof.
  intros (tr & new & Htr & Hre & Hres). unfold accounts, try_catch.
  destruct (m st) as [st1 [a|e]] eqn:Hm; cbn [fst snd] in *.
  - exists tr, new. auto.
  - exists (tr ++ [ConsoleError label e]), new.
    unfold bind, emit, throw. cbn [fst snd world trace].
    rewrite Htr, List.app_assoc. split; [reflexivity|]. split; [|exact Hres].
    rewrite replay_app, Hre. cbn [fst snd replay]. now rewrite app_nil_r.
Qed.

Lemma settle_all_accounts {A} (ms : list (M A)) :
  (forall m st, In m ms -> accounts true m st) ->
  forall st, exists tr new,
    trace (fst (settle_all ms st)) = trace st ++ tr /\
    replay (world st) tr = (world (fst (settle_all ms st)), new) /\
    match all_values (snd (settle_all ms st)) with
    | Ok _ => new = []
    | Throw e => In e new
    end.
Proof.
  induction ms as [|m ms IH]; intros Hall st.
  - exists [], []. simpl. rewrite app_nil_r. auto.
  - destruct (Hall m st (or_introl eq_refl)) as (tr & new & Htr & Hre & Hres).
    cbn [settle_all]. destruct (m st) as [st1 r] eqn:Hm. cbn [fst snd] in *.
    destruct (IH (fun m' s H => Hall m' s (or_intror H)) st1)
      as (tr' & new' & Htr' & Hre' & Hres').
    destruct (settle_all ms st1) as [st2 rs]. cbn [fst snd] in *.
    exists (tr ++ tr'), (new ++ new'). rewrite Htr', Htr, List.app_assoc.
    split; [reflexivity|]. split.
    + rewrite replay_app, Hre. cbn [fst snd]. now rewrite Hre'.
    + destruct r as [a|e]; cbn [all_values].
      * subst new. destruct (all_values rs); simpl; auto.
      * destruct Hres as [H|[H _]]; [|discriminate].
        apply in_or_app. now left.
Qed.

(** [Promise.all] rejects whenever a member rejects, with an error that a
    member raised. *)
Lemma accounts_Promise_all {A} (ms : list (M A)) st :
  (forall m st, In m ms -> accounts true m st) ->
  accounts true (Promise_all ms) st.
Proof.
  intros Hall. destruct (settle_all_accounts ms Hall st)
    as (tr & new & Htr & Hre & Hres).
  exists tr, new. unfold Promise_all.
  destruct (settle_all ms st) as [st' rs]. cbn [fst snd] in *.
  repeat split; auto. destruct (all_values rs); auto.
Qed.

Lemma accounts_for_of {A} (xs : list A) body st :
  (forall x st, accounts false (body x) st) ->
  accounts false (for_of xs body) st.
Proof.
  intros H. revert st. induction xs as [|x xs IH]; intros st; cbn [for_of].
  - apply accounts_ret.
  - apply accounts_bind; auto.
Qed.

Lemma accounts_optimizeImage input extension st :
  accounts false (optimizeImage input extension) st.
Proof.
  unfold optimizeImage.
  apply accounts_bind; [apply accounts_weaken, accounts_metadata|].
  intros st' md _.
  repeat match goal with
         | |- accounts _ (if ?b then _ else _) _ => destruct b
         end;
    try apply accounts_weaken, accounts_toBuffer.
  apply accounts_throw.
Qed.

Lemma accounts_process_object bucket key st :
  accounts false (process_object bucket key) st.
Proof.
  unfold process_object.
  apply accounts_bind; [apply accounts_weaken, accounts_getObject|].
  intros st1 obj _.
  destruct (includes _ _); cbn [negb]; [|apply accounts_console_log].
  destruct (JsString.startsWith _ "image/"); cbn [negb];
    [|apply accounts_console_log].
  apply accounts_bind; [apply accounts_optimizeImage|]. intros st2 optimized _.
  apply accounts_bind; [apply accounts_weaken, accounts_toBuffer|].
  intros st3 thumbnail _.
  apply accounts_bind.
  { apply accounts_weaken, accounts_Promise_all.
    intros m st' Hin. apply in_map_iff in Hin as (size & <- & _).
    apply accounts_bind; [apply accounts_toBuffer|].
    intros st'' b _. apply accounts_ret. }
  intros st4 resizedImages _.
  apply accounts_bind; [apply accounts_weaken, accounts_putObject|].
  intros st5 _ _.
  apply accounts_bind; [apply accounts_weaken, accounts_putObject|].
  intros st6 _ _.
  apply accounts_bind.
  { apply accounts_weaken, accounts_Promise_all.
    intros m st' Hin. apply in_map_iff in Hin as (resized & <- & _).
    apply accounts_putObject. }
  intros st7 _ _.
  apply accounts_bind; [apply accounts_weaken, accounts_toBuffer|].
  intros st8 webp _. apply accounts_weaken, accounts_putObject.
Qed.

Lemma accounts_process_record record st :
  accounts false (process_record record) st.
Proof.
  unfold process_record. apply accounts_bind; [apply accounts_lift|].
  intros st' [bucket key] _. cbn [fst snd]. unfold process_item.
  destruct (JsString.startsWith key "original/"); cbn [negb];
    [|apply accounts_console_log].
  apply accounts_rethrow, accounts_process_object.
Qed.

Lemma for_of_throw_inv {A} (xs : list A) body st st2 e :
  for_of xs body st = (st2, Throw e) ->
  exists pre x post st1,
    xs = pre ++ x :: post /\
    for_of pre body st = (st1, Ok tt) /\
    body x st1 = (st2, Throw e).
Proof.
  revert st. induction xs as [|x xs IH]; intros st; cbn [for_of].
  - discriminate.
  - unfold bind. destruct (body x st) as [st1 [[]|e1]] eqn:Hx.
    + intros H. destruct (IH _ H) as (pre & y & post & st1' & -> & Hpre & Hy).
      exists (x :: pre), y, post, st1'. repeat split; auto.
      cbn [for_of]. unfold bind. now rewrite Hx.
    + intros H. injection H as <- <-.
      exists [], x, xs, st. auto.
Qed.

Lemma accounts_run {A} (m : M A) w st' r :
  accounts false m (mkState w []) ->
  m (mkState w []) = (st', r) ->
  match r with
  | Ok _ => raised w (trace st') = []
  | Throw e => In e (raised w (trace st')) \/ raised w (trace st') = []
  end.
Proof.
  intros (tr & new & Htr & Hre & Hres) Hm. rewrite Hm in *.
  cbn [fst snd world trace app] in *. unfold raised. rewrite Htr, Hre.
  cbn [snd]. destruct r; [exact Hres|]. destruct Hres as [H|[_ H]]; auto.
Qed.

(** C5: when a fetch, a decoding (the codec reading the metadata), a
    transform or a write of the run raises an error, the handler does not
    answer: it throws one of the errors raised, at the end of the turn of
    the record that failed, after the records before it have completed
    without any error.  The run ends in the state that record left: no
    record after it is processed. *)
Theorem failure_is_reraised (event : object) (w : World) (e : error) :
  In e (raised w (trace (fst (run (handler event) w)))) ->
  exists e' pre record post st1 st2,
    selected event = inr (pre ++ record :: post) /\
    run (for_of pre process_record) w = (st1, Ok tt) /\
    raised w (trace st1) = [] /\
    process_record record st1 = (st2, Throw e') /\
    run (handler event) w = (st2, Throw e') /\
    In e' (raised w (trace st2)).
Proof.
  unfold run, handler.
  rewrite (bind_ok _ _ _ _ _ (select_records_pure event (mkState w []))).
  destruct (selected event) as [response|records] eqn:Hsel;
    [intros []|].
  destruct records as [|r rs]; [intros []|].
  unfold bind.
  destruct (for_of (r :: rs) process_record (mkState w [])) as [st2 [[]|e']]
    eqn:Hrun; cbn [fst snd]; intros Hin.
  - pose proof (accounts_run _ _ _ _
                  (accounts_for_of (r :: rs) process_record (mkState w [])
                                   accounts_process_record) Hrun) as H.
    cbn beta iota in H. unfold ret in Hin. cbn [fst] in Hin.
    rewrite H in Hin. destruct Hin.
  - pose proof (accounts_run _ _ _ _
                  (accounts_for_of (r :: rs) process_record (mkState w [])
                                   accounts_process_record) Hrun) as H.
    cbn beta iota in H.
    destruct (for_of_throw_inv _ _ _ _ _ Hrun)
      as (pre & record & post & st1 & Hrecs & Hpre & Hturn).
    pose proof (accounts_run _ _ _ _
                  (accounts_for_of pre process_record (mkState w [])
                                   accounts_process_record) Hpre) as H1.
    cbn beta iota in H1.
    exists e', pre, record, post, st1, st2.
    split; [now rewrite Hrecs|]. split; [exact Hpre|]. split; [exact H1|].
    split; [exact Hturn|]. split; [reflexivity|].
    destruct H as [H|H]; [exact H|]. rewrite H in Hin. destruct Hin.
Qed.

End Accounting.

(** ** Concrete runs *)

(** C6: only the optimized transform rotates.  [optimizeImage] starts its
    pipeline with the one EXIF rotation, before its resize; the pipelines
    of [createThumbnail], [createResizedImage] and [convertToWebP] hold no
    rotation at all, as the six pipelines of a run on [original/photo.jpg]
    show. *)
Theorem rotation_only_in_optimized :
  (forall md, exists rest,
      optimize_ops md = Rotate :: rest /\ rotations rest = 0) /\
  (forall extension, rotations (thumbnail_ops extension) = 0) /\
  (forall extension w, rotations (resized_ops extension w) = 0) /\
  rotations webp_ops = 0 /\
  map rotations
      (codec_pipelines
         (trace (fst (@run (Memory.env true) _
                           (handler (Memory.direct_event "photos" "original/photo.jpg"))
                           [("original/photo.jpg", Memory.image "image/jpeg")]))))
  = [1; 0; 0; 0; 0; 0].
Proof.
  repeat split.
  - intros md. unfold optimize_ops.
    destruct (exceeds (width md) 1200 || exceeds (height md) 1200);
      eexists; split; reflexivity.
Qed.

(** Witness of C1: [original/photo.JPG] in a bucket that accepts writes. *)
Lemma six_variants_written_witness :
  exists st',
    @process_item (Memory.env true) (VString "photos") "original/photo.JPG"
                  (Memory.start true [("original/photo.JPG", Memory.image "image/jpeg")])
    = (st', Ok tt) /\
    written_keys (trace st')
    = ["optimized/photo.JPG"; "thumbnails/photo.JPG"; "sizes/photo-small.JPG";
       "sizes/photo-medium.JPG"; "sizes/photo-large.JPG"; "webp/photo.webp"].
Proof.
  apply (@six_variants_written (Memory.env true) (VString "photos") "photo" "JPG"
           (Memory.image "image/jpeg") (mkImageMetadata (Some 2000) (Some 1500))
           (fun _ => Body (Memory.image "image/jpeg"))
           (fun s req => Memory.stored req s)
           (Memory.start true [("original/photo.JPG", Memory.image "image/jpeg")])
           [("original/photo.JPG", Memory.image "image/jpeg")]);
    try reflexivity.
  simpl. auto.
Defined.

(** The claim C1 as it is written fails on an eligible [gif]: nothing is
    written for it. *)
Lemma six_variants_counterexample :
  Spec.eligible "original/anim.gif" (Some "image/gif") = true /\
  written_keys
    (trace (fst (@run (Memory.env true) _
                      (handler (Memory.direct_event "photos" "original/anim.gif"))
                      [("original/anim.gif", Memory.image "image/gif")])))
  <> Spec.destination_keys "anim" "gif".
Proof. split; [reflexivity|]. vm_compute. discriminate. Qed.

(** Witness of C3: [original/fake.jpg] is stored as [text/plain]; the loop
    goes on with the next record. *)
Lemma ineligible_item_skipped_witness :
  let store := [("original/fake.jpg", mkS3Object [37; 80] (Some "text/plain"));
                ("original/photo.jpg", Memory.image "image/jpeg")] in
  @for_of (Memory.env true) _
          [Memory.s3_record "photos" "original/fake.jpg";
           Memory.s3_record "photos" "original/photo.jpg"]
          process_record (Memory.start true store)
  = for_of [Memory.s3_record "photos" "original/photo.jpg"] process_record
           (@mkState (Memory.env true) store
                     [GetObject (VString "photos") "original/fake.jpg";
                      ConsoleLog "Not an image file based on Content-Type:"
                                 "text/plain"]).
Proof.
  intros store.
  exact (@ineligible_item_skipped (Memory.env true)
           (Memory.s3_record "photos" "original/fake.jpg")
           [Memory.s3_record "photos" "original/photo.jpg"]
           (VString "photos") "original/fake.jpg" (Some "text/plain")
           Spec.ContentTypeCheck (Memory.start true store)
           eq_refl eq_refl store [37; 80] eq_refl).
Defined.

(** A bucket that refuses writes: the first write of the first record
    fails and the second record is never fetched. *)
Example read_only_bucket_run :
  let store := [("original/photo.jpg", Memory.image "image/jpeg");
                ("original/other.jpg", Memory.image "image/jpeg")] in
  let event := Memory.batch_event [Memory.s3_record "photos" "original/photo.jpg";
                                   Memory.s3_record "photos" "original/other.jpg"] in
  snd (@run (Memory.env false) _ (handler event) store)
  = Throw (AwsError "AccessDenied") /\
  s3_calls (trace (fst (@run (Memory.env false) _ (handler event) store)))
  = [GetObject (VString "photos") "original/photo.jpg";
     PutObject (mkPut (VString "photos") "optimized/photo.jpg" [255; 216; 255; 224]
                      "image/jpeg" cacheControl (Some (mkSizeMetadata 4 4)))].
Proof. split; reflexivity. Qed.

(** Witness of C5: a bucket that refuses the writes under [sizes/].  The
    first record is fetched and skipped, the second fails on its sized
    writes, the third is never fetched. *)
Lemma failure_is_reraised_witness :
  let store := [("original/notes.txt", Memory.image "text/plain");
                ("original/photo.jpg", Memory.image "image/jpeg");
                ("original/later.jpg", Memory.image "image/jpeg")] in
  let event := Memory.batch_event [Memory.s3_record "photos" "original/notes.txt";
                                   Memory.s3_record "photos" "original/photo.jpg";
                                   Memory.s3_record "photos" "original/later.jpg"] in
  In (AwsError "AccessDenied")
     (@raised Faulty.sizes_denied_env store
              (trace (fst (@run Faulty.sizes_denied_env _ (handler event) store)))) /\
  exists e' pre record post st1 st2,
    selected event = inr (pre ++ record :: post) /\
    @run Faulty.sizes_denied_env _ (for_of pre process_record) store = (st1, Ok tt) /\
    @raised Faulty.sizes_denied_env store (trace st1) = [] /\
    process_record record st1 = (st2, Throw e') /\
    @run Faulty.sizes_denied_env _ (handler event) store = (st2, Throw e') /\
    In e' (@raised Faulty.sizes_denied_env store (trace st2)).
Proof.
  intros store event.
  assert (Hraised : In (AwsError "AccessDenied")
                       (@raised Faulty.sizes_denied_env store
                          (trace (fst (@run Faulty.sizes_denied_env _
                                            (handler event) store)))))
    by (vm_compute; auto).
  split; [exact Hraised|].
  exact (@failure_is_reraised Faulty.sizes_denied_env event store
           (AwsError "AccessDenied") Hraised).
Defined.


(** Witness of C7: a JPEG stored as [image/png]; its optimized variant
    keeps the declared type. *)
Lemma stored_content_types_witness :
  stored_type "jpg" (Some "image/png")
              (mkPut (VString "photos") "optimized/a.jpg" [255; 216; 255; 224]
                     "image/png" cacheControl (Some (mkSizeMetadata 4 4))).
Proof.
  apply (@stored_content_types (Memory.env true) (VString "photos")
           "original/a.jpg" [("original/a.jpg", Memory.image "image/png")]
           [("original/a.jpg", Memory.image "image/png")]
           (Memory.image "image/png")).
  - reflexivity.
  - vm_compute. tauto.
Defined.

(** The claim C7 as it is written fails on the optimized variant: the
    source is encoded as JPEG and stored with the declared [image/png]. *)
Lemma stored_content_types_counterexample :
  let tr := trace (fst (@run (Memory.env true) _
                             (process_item (VString "photos") "original/a.jpg")
                             [("original/a.jpg", Memory.image "image/png")])) in
  In (SharpToBuffer [255; 216; 255; 224]
                    [Rotate; ResizeInside (Some 1200) (Some 1200) true;
                     Jpeg 85 true true]) tr /\
  exists r, In (PutObject r) tr /\
            put_Key r = "optimized/a.jpg" /\
            put_ContentType r = "image/png" /\
            put_ContentType r <> Spec.content_type_of_format "jpeg".
Proof.
  split.
  - vm_compute. tauto.
  - exists (mkPut (VString "photos") "optimized/a.jpg" [255; 216; 255; 224]
                  "image/png" cacheControl (Some (mkSizeMetadata 4 4))).
    split; [vm_compute; tauto|]. repeat split. discriminate.
Qed.

(** Witness of C9: the thumbnail of [original/photo.JPG]. *)
Lemma variant_content_types_witness :
  variant_type "jpg"
               (mkPut (VString "photos") "thumbnails/photo.JPG" [255; 216; 255; 224]
                      "image/jpeg" cacheControl None).
Proof.
  apply (@variant_content_types (Memory.env true) (VString "photos")
           "original/photo.JPG"
           [("original/photo.JPG", Memory.image "image/jpeg")]).
  vm_compute. tauto.
Defined.

(** Witness of C10: the key [original/my+photo%281%29.JPG] of the event
    names the object [original/my photo(1).JPG]. *)
Lemma key_decoded_first_witness :
  let store := [("original/my photo(1).JPG", Memory.image "image/jpeg")] in
  exists st' calls,
    @process_record (Memory.env true)
                    (Memory.s3_record "photos" "original/my+photo%281%29.JPG")
                    (Memory.start true store)
    = (st', Ok tt) /\
    trace st' = GetObject (VString "photos") "original/my photo(1).JPG" :: calls /\
    written_keys (trace st')
    = ["optimized/my photo(1).JPG"; "thumbnails/my photo(1).JPG";
       "sizes/my photo(1)-small.JPG"; "sizes/my photo(1)-medium.JPG";
       "sizes/my photo(1)-large.JPG"; "webp/my photo(1).webp"].
Proof.
  intros store.
  assert (Hrec : describes (Memory.s3_record "photos" "original/my+photo%281%29.JPG")
                           (VString "photos") "original/my+photo%281%29.JPG").
  { do 4 eexists. repeat (split; [reflexivity|]). reflexivity. }
  destruct (@key_decoded_first (Memory.env true) _ _ _ "original/my photo(1).JPG"
              (Memory.start true store) Hrec eq_refl) as (_ & _ & H).
  apply (H "my photo(1)" "JPG" (Memory.image "image/jpeg")
           (mkImageMetadata (Some 2000) (Some 1500))
           (fun _ => Body (Memory.image "image/jpeg"))
           (fun s req => Memory.stored req s) store);
    try reflexivity.
  simpl. auto.
Defined.

(** ** The examples of the specification *)

Example probe_event :
  @run (Memory.env true) _ (handler [("test", VBool true)]) []
  = (Memory.start true [], Ok working_response)
  /\ statusCode working_response = 200%Z.
Proof. split; reflexivity. Qed.

Example malformed_event :
  @run (Memory.env true) _ (handler [("foo", VNumber 1)]) []
  = (Memory.start true [],
     Ok (mkResponse 400
           (VObject
              [("error",
                VString "Invalid event format. Expected S3 event or EventBridge event.");
               ("received", VArray [VString "foo"])]))).
Proof. reflexivity. Qed.

Example wrong_prefix_skipped :
  @run (Memory.env true) _
       (handler (Memory.batch_event [Memory.s3_record "photos" "thumbnails/x.jpg"]))
       [("thumbnails/x.jpg", Memory.image "image/jpeg")]
  = (@mkState (Memory.env true)
              [("thumbnails/x.jpg", Memory.image "image/jpeg")]
              [ConsoleLog "Skipping non-original file:" "thumbnails/x.jpg"],
     Ok (message_response "Images processed successfully")).
Proof. reflexivity. Qed.

Example pdf_skipped :
  s3_calls
    (trace (fst (@run (Memory.env true) _
                      (handler (Memory.direct_event "photos" "original/doc.pdf"))
                      [("original/doc.pdf", Memory.image "application/pdf")])))
  = [GetObject (VString "photos") "original/doc.pdf"].
Proof. reflexivity. Qed.

Example photo_end_to_end :
  map (fun r => (put_Key r, put_ContentType r))
      (put_requests
         (trace (fst (@run (Memory.env true) _
                           (handler (Memory.direct_event "photos" "original/photo.jpg"))
                           [("original/photo.jpg", Memory.image "image/jpeg")]))))
  = [("optimized/photo.jpg", "image/jpeg"); ("thumbnails/photo.jpg", "image/jpeg");
     ("sizes/photo-small.jpg", "image/jpeg"); ("sizes/photo-medium.jpg", "image/jpeg");
     ("sizes/photo-large.jpg", "image/jpeg"); ("webp/photo.webp", "image/webp")].
Proof. reflexivity. Qed.

Example extensionless_key :
  written_keys
    (trace (fst (@run (Memory.env true) _
                      (process_item (VString "photos") "original/jpg")
                      [("original/jpg", Memory.image "image/jpeg")])))
  = ["optimized/jpg"; "thumbnails/jpg"; "sizes/jpg"; "sizes/jpg"; "sizes/jpg";
     "webp/jpg"].
Proof. reflexivity. Qed.

Example decode_examples :
  decodeURIComponent "caf%C3%A9%20%2B.png" = Ok "café +.png" /\
  decodeURIComponent "100%.png" = Throw (URIError "URI malformed") /\
  decodeURIComponent "%C0%AF" = Throw (URIError "URI malformed") /\
  decodeURIComponent "%E9" = Throw (URIError "URI malformed").
Proof. repeat split. Qed.

Example malformed_key_throws :
  @run (Memory.env true) _
       (handler (Memory.direct_event "photos" "original/100%.jpg")) []
  = (Memory.start true [], Throw (URIError "URI malformed")).
Proof. reflexivity. Qed.

Example plus_then_percent :
  record_target (Memory.s3_record "photos" "original/a%2Bb+c.jpg")
  = Ok (VString "photos", "original/a+b c.jpg").
Proof. reflexivity. Qed.

(** * More about the code *)

(** ** Every step of one item *)

Section ItemSteps.

Context {E : Env}.

Lemma toBuffer_value input ops st st' out :
  toBuffer input ops st = (st', Ok out) -> sharp_toBuffer input ops = Ok out.
Proof. rewrite toBuffer_run. intros H. now injection H. Qed.

Lemma optimizeImage_value input extension st st' out :
  optimizeImage input extension st = (st', Ok out) ->
  exists md enc,
    sharp_metadata input = Ok md /\ In enc encoders /\
    sharp_toBuffer input (optimize_ops md ++ [enc]) = Ok out.
Proof.
  unfold optimizeImage, bind. rewrite metadata_run.
  destruct (sharp_metadata input) as [md|e]; [|discriminate].
  unfold encoders.
  repeat match goal with
         | |- context [if ?b then _ else _] => destruct b
         end;
    try (intros H; apply toBuffer_value in H; exists md; eexists;
         split; [reflexivity|]; split; [|exact H]; simpl; tauto).
  discriminate.
Qed.

Lemma optimizeImage_steps P input extension :
  P (SharpMetadata input) ->
  (forall md enc, In enc encoders ->
                  P (SharpToBuffer input (optimize_ops md ++ [enc]))) ->
  grows P (optimizeImage input extension).
Proof.
  intros Hm Hb. unfold optimizeImage.
  apply grows_bind; [now apply grows_metadata|]. intros md.
  repeat match goal with
         | |- grows _ (if ?b then _ else _) => destruct b
         end;
    try (apply grows_toBuffer, Hb; simpl; tauto).
  apply grows_throw.
Qed.

(** The values of a [Promise.all] over a mapped list come from its
    members, one for one. *)
Lemma Promise_all_map_values {A B} (f : A -> M B) (xs : list A) st st' l :
  Promise_all (map f xs) st = (st', Ok l) ->
  Forall2 (fun x y => exists s s', f x s = (s', Ok y)) xs l.
Proof.
  unfold Promise_all. revert st st' l.
  induction xs as [|x xs IH]; intros st st' l; simpl.
  - intros H. injection H as _ <-. constructor.
  - destruct (f x st) as [st1 r] eqn:Hx.
    destruct (settle_all (map f xs) st1) as [st2 rs] eqn:Hrs. simpl.
    destruct r as [y|e]; [|discriminate].
    destruct (all_values rs) as [l'|e] eqn:Hl; [|discriminate].
    intros H. injection H as _ <-. constructor; [eauto|].
    apply (IH st1 st2). now rewrite Hrs, Hl.
Qed.

Lemma Forall_map_grows_in {A B} P (f : A -> M B) (l : list A) :
  (forall x, In x l -> grows P (f x)) -> Forall (grows P) (map f l).
Proof.
  intros H. induction l; simpl; constructor.
  - apply H. now left.
  - apply IHl. intros x Hx. apply H. now right.
Qed.

Lemma Forall2_In_l {A B} (R : A -> B -> Prop) xs ys x :
  Forall2 R xs ys -> In x xs -> exists y, In y ys /\ R x y.
Proof.
  induction 1 as [|a b xs ys Hab _ IH]; simpl; [tauto|].
  intros [<-|Hin]; [eauto|]. destruct (IH Hin) as (y & Hy & Hr). eauto.
Qed.

Lemma Forall2_In_r {A B} (R : A -> B -> Prop) xs ys y :
  Forall2 R xs ys -> In y ys -> exists x, In x xs /\ R x y.
Proof.
  induction 1 as [|a b xs ys Hab _ IH]; simpl; [tauto|].
  intros [<-|Hin]; [eauto|]. destruct (IH Hin) as (x & Hx & Hr). eauto.
Qed.

Lemma resized_values input extension st st' (l : list (string * buffer)) :
  Promise_all
    (map (fun size =>
            bind (createResizedImage input extension (snd size))
                 (fun b => ret (fst size, b)))
         sizes) st = (st', Ok l) ->
  (forall size, In size sizes ->
                exists out,
                  sharp_toBuffer input (resized_ops extension (snd size)) = Ok out) /\
  (forall resized, In resized l ->
                   exists size,
                     In size sizes /\ fst resized = fst size /\
                     sharp_toBuffer input (resized_ops extension (snd size))
                     = Ok (snd resized)).
Proof.
  intros H. apply Promise_all_map_values in H.
  assert (Hone : forall (size : string * nat) (resized : string * buffer),
             (exists s s',
                 bind (createResizedImage input extension (snd size))
                      (fun b => ret (fst size, b)) s = (s', Ok resized)) ->
             fst resized = fst size /\
             sharp_toBuffer input (resized_ops extension (snd size))
             = Ok (snd resized)).
  { intros size resized (s & s' & Hrun). unfold bind, createResizedImage in Hrun.
    rewrite toBuffer_run in Hrun.
    destruct (sharp_toBuffer input (resized_ops extension (snd size)))
      as [out|e]; [|discriminate].
    unfold ret in Hrun. injection Hrun as _ <-. auto. }
  split.
  - intros size Hin.
    destruct (Forall2_In_l _ _ _ _ H Hin) as (resized & _ & Hr).
    apply Hone in Hr as [_ Hr]. eauto.
  - intros resized Hin.
    destruct (Forall2_In_r _ _ _ _ H Hin) as (size & Hs & Hr).
    apply Hone in Hr as [Hn Hr]. eauto.
Qed.

(** Every call of [process_item], with all it carries: the fetch of the
    item; transforms of the fetched bytes along one of the pipelines; and
    writes, each after the optimized, thumbnail and sized transforms have
    succeeded, each of what the codec returned for its variant. *)
Lemma process_item_steps bucket key st :
  grows_at (item_step bucket key (fetched_at bucket key st))
           (process_item bucket key) st.
Proof.
  unfold process_item.
  destruct (JsString.startsWith key "original/") eqn:Hp; cbn [negb];
    [|apply grows_emit; exact I].
  apply grows_at_try_catch.
  2:{ intros e. apply grows_bind; [apply grows_emit; exact I|].
      intros _. apply grows_throw. }
  unfold process_object.
  apply grows_at_bind; [apply grows_getObject; simpl; auto|].
  intros st' obj Hget. rewrite (fetched_at_getObject _ _ _ _ _ Hget).
  clear Hget st.
  unfold item_step.
  set (filename := JsString.replace "original/" EmptyString key).
  set (ext := extension_of filename). cbn zeta.
  destruct (includes supportedImageFormats ext); cbn [negb];
    [|apply grows_emit; exact I].
  destruct (JsString.startsWith (or_else (ContentType obj) EmptyString) "image/");
    cbn [negb]; [|apply grows_emit; exact I].
  apply grows_at_bind.
  { apply optimizeImage_steps.
    - now exists obj.
    - intros md enc Hin. exists obj. repeat split. now constructor. }
  intros st1 optimizedBuffer Hopt.
  apply optimizeImage_value in Hopt as (md & enc & Hmd & Henc & Hout).
  apply grows_at_bind.
  { apply grows_toBuffer. exists obj. repeat split. constructor. }
  intros st2 thumbnailBuffer Hth. apply toBuffer_value in Hth.
  apply grows_at_bind.
  { apply grows_Promise_all, Forall_map_grows_in. intros size Hin.
    apply grows_bind; [|intros; apply grows_ret].
    apply grows_toBuffer. exists obj. repeat split. now constructor. }
  intros st3 resizedImages Hres.
  apply resized_values in Hres as [Hall Heach].
  assert (Hdone : transforms_done obj ext).
  { split; [|split]; eauto. exists md, enc, optimizedBuffer. auto. }
  match goal with
  | |- grows_at ?P _ _ =>
      assert (Hput : forall req, stored_variant bucket filename obj req ->
                                 grows P (putObject req))
  end.
  { intros req Hreq. apply grows_putObject. exists obj. auto. }
  apply grows_at_bind; [apply Hput; eapply StoredOptimized; eauto|].
  intros st4 _ _.
  apply grows_at_bind; [apply Hput; now apply StoredThumbnail|].
  intros st5 _ _.
  apply grows_at_bind.
  { apply grows_Promise_all, Forall_map_grows_in. intros resized Hin.
    destruct (Heach _ Hin) as (size & Hsize & Hname & Hbuf).
    apply Hput. rewrite Hname. now apply StoredSized. }
  intros st6 _ _.
  apply grows_at_bind.
  { apply grows_toBuffer. exists obj. repeat split. constructor. }
  intros st7 webpBuffer Hweb. apply toBuffer_value in Hweb.
  apply Hput. now apply StoredWebp.
Qed.

Lemma process_item_step_in bucket key w w1 obj c :
  s3_getObject w bucket key = (w1, Ok obj) ->
  In c (trace (fst (run (process_item bucket key) w))) ->
  item_step bucket key (Some obj) c.
Proof.
  intros Hget Hin.
  destruct (process_item_steps bucket key (mkState w [])) as (tr & Htr & Hall).
  unfold run in Hin. rewrite Htr in Hin. simpl in Hin.
  rewrite Forall_forall in Hall. apply Hall in Hin.
  unfold fetched_at in Hin. simpl in Hin. now rewrite Hget in Hin.
Qed.

Lemma process_item_write_in bucket key w r :
  In (PutObject r) (trace (fst (run (process_item bucket key) w))) ->
  exists obj,
    stored_variant bucket (JsString.replace "original/" EmptyString key) obj r.
Proof.
  intros Hin.
  destruct (process_item_steps bucket key (mkState w [])) as (tr & Htr & Hall).
  unfold run in Hin. rewrite Htr in Hin. simpl in Hin.
  rewrite Forall_forall in Hall. apply Hall in Hin.
  destruct Hin as (obj & _ & _ & H). eauto.
Qed.

Lemma recipe_never_enlarges extension ops :
  recipe extension ops -> Forall never_enlarges ops.
Proof.
  destruct 1 as [md enc Henc| |size _|].
  - apply Forall_app. split.
    + unfold optimize_ops. destruct (_ || _); repeat constructor.
    + simpl in Henc. decompose [or] Henc; try contradiction; subst;
        repeat constructor.
  - repeat constructor.
  - repeat constructor.
  - repeat constructor.
Qed.

(** Every write of an item goes to the bucket of the item, to a key under
    [optimized/], [thumbnails/], [sizes/] or [webp/], with a cache control
    of one year. *)
Theorem writes_confined (bucket : value) (key : string) (w : World)
  (r : PutRequest) :
  In (PutObject r) (trace (fst (run (process_item bucket key) w))) ->
  put_Bucket r = bucket /\
  put_CacheControl r = "max-age=31536000" /\
  existsb (JsString.startsWith (put_Key r))
          ["optimized/"; "thumbnails/"; "sizes/"; "webp/"] = true.
Proof.
  intros Hin. destruct (process_item_write_in _ _ _ _ Hin) as (obj & Hreq).
  destruct Hreq; repeat split.
Qed.

(** The size metadata is attached to the optimized write alone, and holds
    the length of the fetched body and the length of the body written. *)
Theorem size_metadata_of_optimized (bucket : value) (key : string)
  (w w1 : World) (obj : S3Object) (r : PutRequest) :
  s3_getObject w bucket key = (w1, Ok obj) ->
  In (PutObject r) (trace (fst (run (process_item bucket key) w))) ->
  put_Metadata r =
  if JsString.startsWith (put_Key r) "optimized/"
  then Some (mkSizeMetadata (List.length (Body obj)) (List.length (put_Body r)))
  else None.
Proof.
  intros Hget Hin.
  destruct (process_item_step_in _ _ _ _ _ _ Hget Hin) as (obj' & Hf & _ & Hreq).
  injection Hf as <-. destruct Hreq; reflexivity.
Qed.

(** What is stored for a variant is what the codec returned for the
    pipeline of that variant, applied to the fetched bytes. *)
Theorem stored_bodies_are_codec_outputs (bucket : value) (key : string)
  (w w1 : World) (obj : S3Object) (r : PutRequest) :
  s3_getObject w bucket key = (w1, Ok obj) ->
  In (PutObject r) (trace (fst (run (process_item bucket key) w))) ->
  let filename := JsString.replace "original/" EmptyString key in
  let ext := extension_of filename in
  exists ops,
    sharp_toBuffer (Body obj) ops = Ok (put_Body r) /\
    (JsString.startsWith (put_Key r) "optimized/" = true ->
     exists md enc, sharp_metadata (Body obj) = Ok md /\ In enc encoders /\
                    ops = optimize_ops md ++ [enc]) /\
    (JsString.startsWith (put_Key r) "thumbnails/" = true ->
     ops = thumbnail_ops ext) /\
    (JsString.startsWith (put_Key r) "sizes/" = true ->
     exists size, In size sizes /\ ops = resized_ops ext (snd size) /\
                  put_Key r
                  = ("sizes/" ++ JsString.replace_ext_suffix (fst size) filename)%string) /\
    (JsString.startsWith (put_Key r) "webp/" = true -> ops = webp_ops).
Proof.
  intros Hget Hin filename ext.
  destruct (process_item_step_in _ _ _ _ _ _ Hget Hin) as (obj' & Hf & _ & Hreq).
  injection Hf as <-. fold filename in Hreq.
  destruct Hreq as [md enc body Hmd Henc Hout|body Hout|size body Hsize Hout|body Hout];
    cbn [put_Key put_Body]; eexists; (split; [exact Hout|]);
    repeat split; try (intros H; discriminate H); intros _; eauto.
Qed.

(** Every transform reads the fetched bytes, never the output of another
    transform, along one of the pipelines of the item; none of its resizes
    may enlarge. *)
Theorem transforms_read_the_source (bucket : value) (key : string)
  (w w1 : World) (obj : S3Object) (input : buffer) (ops : list sharp_op) :
  s3_getObject w bucket key = (w1, Ok obj) ->
  In (SharpToBuffer input ops) (trace (fst (run (process_item bucket key) w))) ->
  input = Body obj /\
  recipe (extension_of (JsString.replace "original/" EmptyString key)) ops /\
  Forall never_enlarges ops.
Proof.
  intros Hget Hin.
  destruct (process_item_step_in _ _ _ _ _ _ Hget Hin) as (obj' & Hf & Hi & Hr).
  injection Hf as <-. repeat split; auto.
  eapply recipe_never_enlarges; eauto.
Qed.

(** Nothing is written for an item before its optimized, thumbnail and
    three sized transforms have all succeeded. *)
Theorem no_write_before_transforms (bucket : value) (key : string)
  (w w1 : World) (obj : S3Object) (r : PutRequest) :
  s3_getObject w bucket key = (w1, Ok obj) ->
  In (PutObject r) (trace (fst (run (process_item bucket key) w))) ->
  transforms_done obj (extension_of (JsString.replace "original/" EmptyString key)).
Proof.
  intros Hget Hin.
  destruct (process_item_step_in _ _ _ _ _ _ Hget Hin) as (obj' & Hf & Hd & _).
  now injection Hf as <-.
Qed.

End ItemSteps.

(** ** A completed item has had every answer *)

Section Completed.

Context {E : Env}.

Lemma bind_ok_inv {A B} (m : M A) (f : A -> M B) st st' b :
  bind m f st = (st', Ok b) ->
  exists s a, m st = (s, Ok a) /\ f a s = (st', Ok b).
Proof.
  unfold bind. destruct (m st) as [s [a|e]]; [eauto|discriminate].
Qed.

Lemma Promise_all_cons_inv {A} (m : M A) ms st st' l :
  Promise_all (m :: ms) st = (st', Ok l) ->
  exists s a l',
    m st = (s, Ok a) /\ Promise_all ms s = (st', Ok l') /\ l = a :: l'.
Proof.
  unfold Promise_all. cbn [settle_all].
  destruct (m st) as [s r]. destruct (settle_all ms s) as [s' rs] eqn:Hrest.
  destruct r as [a|e]; cbn [all_values]; [|discriminate].
  destruct (all_values rs) as [l'|e] eqn:Hall; [|discriminate].
  intros H. injection H as <- <-. exists s, a, l'.
  rewrite Hrest, Hall. auto.
Qed.

Lemma Promise_all_nil_inv {A} st st' (l : list A) :
  @Promise_all E A [] st = (st', Ok l) -> l = [].
Proof. unfold Promise_all. simpl. intros H. now injection H. Qed.

Lemma putObject_ok_inv req st st' :
  putObject req st = (st', Ok tt) ->
  exists w', s3_putObject (world st) req = (w', Ok tt).
Proof.
  unfold putObject. destruct (s3_putObject (world st) req) as [w' r].
  intros H. injection H as _ ->. eauto.
Qed.

(** When the guarded block of an eligible item returns, each of its
    transforms has succeeded and each of its six keys has been written by
    a request that S3 accepted. *)
Lemma completed_block bucket key st st' w1 obj :
  s3_getObject (world st) bucket key = (w1, Ok obj) ->
  Spec.eligible key (ContentType obj) = true ->
  process_object bucket key st = (st', Ok tt) ->
  let filename := JsString.replace "original/" EmptyString key in
  let ext := extension_of filename in
  (forall ops,
      In ops [thumbnail_ops ext; resized_ops ext 320; resized_ops ext 640;
              resized_ops ext 1024; webp_ops] ->
      exists out, sharp_toBuffer (Body obj) ops = Ok out) /\
  (forall k, In k (variant_keys filename) ->
             exists w req w',
               put_Key req = k /\ s3_putObject w req = (w', Ok tt)).
Proof.
  intros Hget Hel Hrun filename ext.
  apply eligible_checks in Hel as (_ & Hinc & Hct).
  unfold process_object in Hrun.
  rewrite (bind_ok _ _ _ _ _ (getObject_run _ _ _ _ _ Hget)) in Hrun.
  fold filename in Hrun, Hinc. fold ext in Hrun, Hinc.
  rewrite Hinc, Hct in Hrun. cbn [negb] in Hrun.
  apply bind_ok_inv in Hrun as (s1 & b0 & _ & Hrun).
  apply bind_ok_inv in Hrun as (s2 & b1 & H1 & Hrun).
  apply toBuffer_value in H1.
  apply bind_ok_inv in Hrun as (s3 & resized & Hres & Hrun).
  unfold sizes in Hres. cbn [map fst snd] in Hres.
  apply Promise_all_cons_inv in Hres as (t1 & r1 & l1 & H2 & Hres & ->).
  apply Promise_all_cons_inv in Hres as (t2 & r2 & l2 & H3 & Hres & ->).
  apply Promise_all_cons_inv in Hres as (t3 & r3 & l3 & H4 & Hres & ->).
  apply Promise_all_nil_inv in Hres as ->.
  apply bind_ok_inv in H2 as (? & b2 & H2 & Hr1).
  apply bind_ok_inv in H3 as (? & b3 & H3 & Hr2).
  apply bind_ok_inv in H4 as (? & b4 & H4 & Hr3).
  unfold ret in Hr1, Hr2, Hr3.
  injection Hr1 as _ <-. injection Hr2 as _ <-. injection Hr3 as _ <-.
  apply toBuffer_value in H2, H3, H4.
  apply bind_ok_inv in Hrun as (s4 & [] & Hp1 & Hrun).
  apply bind_ok_inv in Hrun as (s5 & [] & Hp2 & Hrun).
  apply bind_ok_inv in Hrun as (s6 & units & Hps & Hrun).
  cbn [map fst snd] in Hps.
  apply Promise_all_cons_inv in Hps as (u1 & [] & ? & Hp3 & Hps & _).
  apply Promise_all_cons_inv in Hps as (u2 & [] & ? & Hp4 & Hps & _).
  apply Promise_all_cons_inv in Hps as (u3 & [] & ? & Hp5 & _ & _).
  apply bind_ok_inv in Hrun as (s7 & b5 & H5 & Hp6).
  apply toBuffer_value in H5.
  apply putObject_ok_inv in Hp1 as (? & Hp1), Hp2 as (? & Hp2), Hp3 as (? & Hp3),
      Hp4 as (? & Hp4), Hp5 as (? & Hp5), Hp6 as (? & Hp6).
  split.
  - intros ops Hin. cbn [In] in Hin.
    decompose [or] Hin; try contradiction; subst ops; eauto.
  - intros k Hin. unfold variant_keys in Hin. cbn [In] in Hin.
    decompose [or] Hin; try contradiction; subst k;
      [exists (world s3)|exists (world s4)|exists (world s5)|exists (world u1)
       |exists (world u2)|exists (world s7)];
      eexists; eexists; (split; [|eassumption]); reflexivity.
Qed.

(** A transform that fails alone is enough: the guarded block of an
    eligible item throws when the codec fails on the thumbnail, on any
    one of the three sized variants, or on the webp variant. *)
Lemma one_transform_failure_throws bucket key st w1 obj ops e :
  s3_getObject (world st) bucket key = (w1, Ok obj) ->
  Spec.eligible key (ContentType obj) = true ->
  let ext := extension_of (JsString.replace "original/" EmptyString key) in
  In ops [thumbnail_ops ext; resized_ops ext 320; resized_ops ext 640;
          resized_ops ext 1024; webp_ops] ->
  sharp_toBuffer (Body obj) ops = Throw e ->
  exists st' e', process_object bucket key st = (st', Throw e').
Proof.
  intros Hget Hel ext Hin Hfail.
  destruct (process_object bucket key st) as [st' [[]|e']] eqn:Hrun; [|eauto].
  destruct (completed_block _ _ _ _ _ _ Hget Hel Hrun) as [Hall _].
  destruct (Hall ops Hin) as (out & Hout). congruence.
Qed.

(** A write that is refused alone is enough: the guarded block of an
    eligible item throws when S3 refuses the requests for any one of its
    six keys. *)
Lemma one_write_refusal_throws bucket key st w1 obj k :
  s3_getObject (world st) bucket key = (w1, Ok obj) ->
  Spec.eligible key (ContentType obj) = true ->
  In k (variant_keys (JsString.replace "original/" EmptyString key)) ->
  (forall w req, put_Key req = k ->
                 exists w' e, s3_putObject w req = (w', Throw e)) ->
  exists st' e', process_object bucket key st = (st', Throw e').
Proof.
  intros Hget Hel Hin Hrefuse.
  destruct (process_object bucket key st) as [st' [[]|e']] eqn:Hrun; [|eauto].
  destruct (completed_block _ _ _ _ _ _ Hget Hel Hrun) as [_ Hall].
  destruct (Hall k Hin) as (w & req & w' & Hk & Hok).
  destruct (Hrefuse w req Hk) as (w'' & e & Hno). congruence.
Qed.

(** The same for the whole run, at any place of a batch: when the records
    before it have been processed, a single failing transform of an
    eligible record makes the handler throw, with the error its guarded
    block threw. *)
Lemma transform_failure_alone_is_reraised
  (event : object) (pre post : list value) (record bucket : value)
  (key : string) (w w1 : World) (st1 : state) (obj : S3Object)
  (ops : list sharp_op) (e : error) :
  selected event = inr (pre ++ record :: post) ->
  run (for_of pre process_record) w = (st1, Ok tt) ->
  record_target record = Ok (bucket, key) ->
  s3_getObject (world st1) bucket key = (w1, Ok obj) ->
  Spec.eligible key (ContentType obj) = true ->
  let ext := extension_of (JsString.replace "original/" EmptyString key) in
  In ops [thumbnail_ops ext; resized_ops ext 320; resized_ops ext 640;
          resized_ops ext 1024; webp_ops] ->
  sharp_toBuffer (Body obj) ops = Throw e ->
  exists st2 e',
    process_object bucket key st1 = (st2, Throw e') /\
    snd (run (handler event) w) = Throw e'.
Proof.
  intros Hsel Hpre Htarget Hget Hel ext Hin Hfail.
  destruct (one_transform_failure_throws _ _ _ _ _ _ _ Hget Hel Hin Hfail)
    as (st2 & e' & Hthrow).
  exists st2, e'. split; [exact Hthrow|].
  pose proof (eligible_checks _ _ Hel) as (Hprefix & _).
  now rewrite (thrown_block_is_reraised _ _ _ _ _ _ _ _ _ _
                 Hsel Hpre Htarget Hprefix Hthrow).
Qed.

(** And a single refused key: when S3 refuses the requests for one of the
    six keys of an eligible record, the handler throws, with the error
    the guarded block of the record threw. *)
Lemma write_refusal_alone_is_reraised
  (event : object) (pre post : list value) (record bucket : value)
  (key k : string) (w w1 : World) (st1 : state) (obj : S3Object) :
  selected event = inr (pre ++ record :: post) ->
  run (for_of pre process_record) w = (st1, Ok tt) ->
  record_target record = Ok (bucket, key) ->
  s3_getObject (world st1) bucket key = (w1, Ok obj) ->
  Spec.eligible key (ContentType obj) = true ->
  In k (variant_keys (JsString.replace "original/" EmptyString key)) ->
  (forall w' req, put_Key req = k ->
                  exists w'' e, s3_putObject w' req = (w'', Throw e)) ->
  exists st2 e',
    process_object bucket key st1 = (st2, Throw e') /\
    snd (run (handler event) w) = Throw e'.
Proof.
  intros Hsel Hpre Htarget Hget Hel Hin Hrefuse.
  destruct (one_write_refusal_throws _ _ _ _ _ _ Hget Hel Hin Hrefuse)
    as (st2 & e' & Hthrow).
  exists st2, e'. split; [exact Hthrow|].
  pose proof (eligible_checks _ _ Hel) as (Hprefix & _).
  now rewrite (thrown_block_is_reraised _ _ _ _ _ _ _ _ _ _
                 Hsel Hpre Htarget Hprefix Hthrow).
Qed.

End Completed.

(** A codec without webp, on a batch: only the last transform of the
    first record fails, and the run ends with its error. *)
Example webp_failure_alone_run :
  let store := [("original/photo.jpg", Memory.image "image/jpeg");
                ("original/other.jpg", Memory.image "image/jpeg")] in
  let event := Memory.batch_event [Memory.s3_record "photos" "original/photo.jpg";
                                   Memory.s3_record "photos" "original/other.jpg"] in
  exists st2 e',
    @process_object Faulty.no_webp_env (VString "photos") "original/photo.jpg"
                    (@mkState Faulty.no_webp_env store [])
    = (st2, Throw e') /\
    snd (@run Faulty.no_webp_env _ (handler event) store) = Throw e'.
Proof.
  intros store event.
  apply (@transform_failure_alone_is_reraised Faulty.no_webp_env event []
           [Memory.s3_record "photos" "original/other.jpg"]
           (Memory.s3_record "photos" "original/photo.jpg")
           (VString "photos") "original/photo.jpg" store store
           (@mkState Faulty.no_webp_env store [])
           (Memory.image "image/jpeg") webp_ops
           (SharpError "webp: unsupported"));
    try reflexivity.
  simpl. tauto.
Qed.

(** ** The cost of a run *)

Section Costs.

Context {E : Env}.

Lemma fetches_app a b : fetches (a ++ b) = fetches a + fetches b.
Proof. unfold fetches. now rewrite filter_app, length_app. Qed.

Lemma writes_app a b : writes (a ++ b) = writes a + writes b.
Proof. unfold writes, put_requests. now rewrite flat_map_app, length_app. Qed.

Lemma costs_same {A} (m : M A) st r : m st = (st, r) -> costs_at 0 0 m st.
Proof.
  intros H. exists []. rewrite H. simpl. rewrite app_nil_r. auto.
Qed.

Lemma costs_weaken {A} g p g' p' (m : M A) st :
  g <= g' -> p <= p' -> costs_at g p m st -> costs_at g' p' m st.
Proof. intros Hg Hp (tr & Htr & Hf & Hw). exists tr. repeat split; auto; lia. Qed.

Lemma costs_bind {A B} g1 p1 g2 p2 (m : M A) (f : A -> M B) st :
  costs_at g1 p1 m st ->
  (forall st' a, m st = (st', Ok a) -> costs_at g2 p2 (f a) st') ->
  costs_at (g1 + g2) (p1 + p2) (bind m f) st.
Proof.
  intros (tr & Htr & Hf & Hw) Hk. unfold costs_at, bind.
  destruct (m st) as [st' [a|e]] eqn:Hm; simpl in Htr.
  - destruct (Hk st' a eq_refl) as (tr' & Htr' & Hf' & Hw').
    exists (tr ++ tr'). rewrite Htr', Htr, app_assoc, fetches_app, writes_app.
    repeat split; lia.
  - exists tr. simpl. repeat split; auto; lia.
Qed.

Lemma costs_try_catch {A} g p (m : M A) h st :
  costs_at g p m st -> (forall e st', costs_at 0 0 (h e) st') ->
  costs_at g p (try_catch m h) st.
Proof.
  intros (tr & Htr & Hf & Hw) Hh. unfold costs_at, try_catch.
  destruct (m st) as [st' [a|e]] eqn:Hm; simpl in Htr.
  - exists tr. simpl. auto.
  - destruct (Hh e st') as (tr' & Htr' & Hf' & Hw').
    exists (tr ++ tr'). rewrite Htr', Htr, app_assoc, fetches_app, writes_app.
    repeat split; lia.
Qed.

Lemma costs_emit c st :
  is_s3_call c = false -> costs_at 0 0 (emit c) st.
Proof.
  intros Hc. exists [c]. split; [reflexivity|].
  destruct c; try discriminate; split; reflexivity.
Qed.

Lemma costs_toBuffer input ops st : costs_at 0 0 (toBuffer input ops) st.
Proof.
  exists [SharpToBuffer input ops]. rewrite toBuffer_run. simpl. auto.
Qed.

Lemma costs_getObject bucket key st : costs_at 1 0 (getObject bucket key) st.
Proof.
  exists [GetObject bucket key]. unfold getObject.
  destruct (s3_getObject (world st) bucket key). simpl. auto.
Qed.

Lemma costs_putObject req st : costs_at 0 1 (putObject req) st.
Proof.
  exists [PutObject req]. unfold putObject.
  destruct (s3_putObject (world st) req). simpl. auto.
Qed.

Lemma costs_optimizeImage input extension st :
  costs_at 0 0 (optimizeImage input extension) st.
Proof.
  unfold optimizeImage.
  apply (costs_bind 0 0 0 0).
  - unfold metadata. apply (costs_bind 0 0 0 0); [now apply costs_emit|].
    intros st' _ _. now apply costs_same with (r := sharp_metadata input).
  - intros st' md _.
    repeat match goal with
           | |- costs_at _ _ (if ?b then _ else _) _ => destruct b
           end;
      try apply costs_toBuffer.
    now apply costs_same with (r := Throw (Error ("Unsupported image format: " ++ extension))).
Qed.

Lemma settle_all_costs {A} g p (ms : list (M A)) :
  (forall m st, In m ms -> costs_at g p m st) ->
  forall st, exists tr,
    trace (fst (settle_all ms st)) = trace st ++ tr /\
    fetches tr <= List.length ms * g /\ writes tr <= List.length ms * p.
Proof.
  induction ms as [|m ms IH]; intros Hall st; simpl.
  - exists []. rewrite app_nil_r. auto.
  - destruct (Hall m st (or_introl eq_refl)) as (tr & Htr & Hf & Hw).
    destruct (m st) as [st1 r]. simpl in Htr.
    destruct (IH (fun m' s H => Hall m' s (or_intror H)) st1)
      as (tr' & Htr' & Hf' & Hw').
    destruct (settle_all ms st1) as [st2 rs]. simpl in *.
    exists (tr ++ tr'). rewrite Htr', Htr, app_assoc, fetches_app, writes_app.
    repeat split; lia.
Qed.

Lemma costs_Promise_all {A} g p (ms : list (M A)) st :
  (forall m st, In m ms -> costs_at g p m st) ->
  costs_at (List.length ms * g) (List.length ms * p) (Promise_all ms) st.
Proof.
  intros Hall. destruct (settle_all_costs g p ms Hall st) as (tr & Htr & H).
  exists tr. unfold Promise_all. destruct (settle_all ms st). simpl in *. auto.
Qed.

(** One item costs at most one fetch and six writes, whatever S3 and the
    codec answer. *)
Lemma process_item_costs bucket key st :
  costs_at 1 6 (process_item bucket key) st.
Proof.
  unfold process_item.
  destruct (JsString.startsWith key "original/"); cbn [negb].
  2:{ eapply costs_weaken; [| |now apply costs_emit]; lia. }
  apply costs_try_catch.
  2:{ intros e st'. apply (costs_bind 0 0 0 0); [now apply costs_emit|].
      intros st'' _ _. now apply costs_same with (r := Throw e). }
  unfold process_object.
  apply (costs_bind 1 0 0 6); [apply costs_getObject|].
  intros st1 obj _.
  destruct (includes _ _); cbn [negb];
    [|eapply costs_weaken; [| |now apply costs_emit]; lia].
  destruct (JsString.startsWith _ "image/"); cbn [negb];
    [|eapply costs_weaken; [| |now apply costs_emit]; lia].
  apply (costs_bind 0 0 0 6); [apply costs_optimizeImage|].
  intros st2 optimizedBuffer _.
  apply (costs_bind 0 0 0 6); [apply costs_toBuffer|].
  intros st3 thumbnailBuffer _.
  apply (costs_bind 0 0 0 6).
  { apply (costs_Promise_all 0 0
             (map (fun size =>
                     bind (createResizedImage (Body obj) _ (snd size))
                          (fun b => ret (fst size, b))) sizes)).
    intros m st' Hin. apply in_map_iff in Hin as (size & <- & _).
    apply (costs_bind 0 0 0 0); [apply costs_toBuffer|].
    intros st'' b _. now apply costs_same with (r := Ok (fst size, b)). }
  intros st4 resizedImages Hres.
  apply Promise_all_map_values, Forall2_length in Hres. simpl in Hres.
  apply (costs_bind 0 1 0 5); [apply costs_putObject|]. intros st5 _ _.
  apply (costs_bind 0 1 0 4); [apply costs_putObject|]. intros st6 _ _.
  apply (costs_bind 0 3 0 1).
  { eapply costs_weaken;
      [| |apply (costs_Promise_all 0 1)].
    - rewrite length_map, <- Hres. lia.
    - rewrite length_map, <- Hres. lia.
    - intros m st' Hin. apply in_map_iff in Hin as (resized & <- & _).
      apply costs_putObject. }
  intros st7 _ _.
  apply (costs_bind 0 0 0 1); [apply costs_toBuffer|]. intros st8 webpBuffer _.
  apply costs_putObject.
Qed.

Lemma for_of_costs (records : list value) st :
  costs_at (List.length records) (6 * List.length records)
           (for_of records process_record) st.
Proof.
  revert st. induction records as [|r rs IH]; intros st.
  - now apply costs_same with (r := Ok tt).
  - cbn [for_of List.length].
    replace (6 * S (List.length rs)) with (6 + 6 * List.length rs) by lia.
    apply (costs_bind 1 6 (List.length rs) (6 * List.length rs)).
    + unfold process_record.
      apply (costs_bind 0 0 1 6).
      * now apply costs_same with (r := record_target r).
      * intros st' target _. apply process_item_costs.
    + intros st' _ _. apply IH.
Qed.

(** A run fetches at most once and writes at most six times per record of
    the event, whatever S3 and the codec answer; an event without records
    causes no fetch and no write. *)
Theorem handler_cost_bounded (event : object) (w : World) :
  let tr := trace (fst (run (handler event) w)) in
  let n := match selected event with
           | inr records => List.length records
           | inl _ => 0
           end in
  fetches tr <= n /\ writes tr <= 6 * n.
Proof.
  unfold run, handler.
  rewrite (bind_ok _ _ _ _ _ (select_records_pure event (mkState w []))).
  destruct (selected event) as [response|records];
    [unfold fetches, writes; simpl; lia|].
  destruct records as [|r rs]; [unfold fetches, writes; simpl; lia|].
  destruct (for_of_costs (r :: rs) (mkState w [])) as (tr & Htr & Hf & Hw).
  unfold bind.
  destruct (for_of (r :: rs) process_record (mkState w [])) as [st' [[]|e]];
    simpl in Htr |- *; rewrite Htr; auto.
Qed.

End Costs.

(** ** The keys of the six variants *)

Section VariantKeys.

Context {E : Env}.

Lemma optimizeImage_encodes input extension md st :
  sharp_metadata input = Ok md ->
  In extension ["jpg"; "jpeg"; "png"; "webp"] ->
  exists enc,
    In enc encoders /\
    optimizeImage input extension st =
    (mkState (world st)
             (trace st ++ [SharpMetadata input;
                           SharpToBuffer input (optimize_ops md ++ [enc])]),
     sharp_toBuffer input (optimize_ops md ++ [enc])).
Proof.
  intros Hmeta Hext. unfold optimizeImage, bind.
  rewrite metadata_run, Hmeta. unfold encoders.
  simpl in Hext. decompose [or] Hext; try contradiction; subst extension;
    cbn [String.eqb Ascii.eqb Bool.eqb orb]; rewrite toBuffer_run;
    cbn [world trace]; rewrite <- app_assoc; eexists;
    (split; [|reflexivity]); simpl; tauto.
Qed.

(** With S3 and the codec answering, an item under [original/] whose
    extension the optimizer knows is written as six objects, at the keys
    built from its file name. *)
Lemma process_item_writes_all bucket filename obj st :
  In (extension_of filename) ["jpg"; "jpeg"; "png"; "webp"] ->
  cooperative bucket ("original/" ++ filename) st obj ->
  exists st',
    process_item bucket ("original/" ++ filename) st = (st', Ok tt) /\
    written_keys (trace st')
    = (written_keys (trace st) ++ variant_keys filename)%list.
Proof.
  intros Hext (w1 & md & enc & after_put & Hget & Hct & Hmeta & Hcodec & Hput).
  unfold process_item. rewrite startsWith_app. cbn [negb].
  assert (Hobj : exists st',
             process_object bucket ("original/" ++ filename) st = (st', Ok tt) /\
             written_keys (trace st')
             = (written_keys (trace st) ++ variant_keys filename)%list).
  { unfold process_object.
    rewrite (bind_ok _ _ _ _ _ (getObject_run _ _ _ _ _ Hget)).
    rewrite replace_prefix.
    change (EmptyString ++ filename)%string with filename.
    rewrite (supported_codec_formats _ Hext), Hct. cbn [negb].
    match goal with
    | |- context [bind (optimizeImage ?i ?x) ?f ?s] =>
        destruct (optimizeImage_run i x md s Hmeta Hext) as (ops & Hrun);
        rewrite Hcodec in Hrun; rewrite (bind_ok _ _ _ _ _ Hrun); clear Hrun
    end.
    cbn [world trace].
    unfold createThumbnail, createResizedImage, convertToWebP.
    erewrite bind_ok by (apply toBuffer_ok, Hcodec). cbn [world trace].
    unfold sizes. cbn [map fst snd].
    erewrite bind_ok.
    2:{ repeat (eapply Promise_all_cons_ok;
                [erewrite bind_ok by (apply toBuffer_ok, Hcodec); reflexivity|]).
        apply Promise_all_nil. }
    cbn [world trace map fst snd].
    erewrite bind_ok by (apply putObject_run, Hput). cbn [world trace].
    erewrite bind_ok by (apply putObject_run, Hput). cbn [world trace].
    erewrite bind_ok.
    2:{ repeat (eapply Promise_all_cons_ok; [apply putObject_run, Hput|]).
        apply Promise_all_nil. }
    cbn [world trace].
    erewrite bind_ok by (apply toBuffer_ok, Hcodec). cbn [world trace].
    erewrite putObject_run by apply Hput.
    eexists. split; [reflexivity|]. cbn [trace].
    rewrite !written_keys_app.
    cbn [written_keys put_requests flat_map map app put_Key].
    rewrite !app_nil_r, <- !List.app_assoc. reflexivity. }
  destruct Hobj as (st' & Hrun & Hkeys). exists st'. split; [|exact Hkeys].
  now apply try_catch_ok.
Qed.

Lemma no_dot_match_ext s : JsString.no_dot s = true -> JsString.match_ext s = None.
Proof.
  induction s as [|c s IH]; simpl; [reflexivity|].
  destruct (Ascii.eqb c "."); simpl; [discriminate|].
  intros H. now rewrite (IH H).
Qed.

Lemma no_dot_extension filename :
  JsString.no_dot filename = true ->
  extension_of filename = JsString.toLowerCase filename.
Proof. intros H. unfold extension_of. now rewrite (no_dot_split _ H). Qed.

(** A file name without a dot that spells a known extension ([JPG],
    [png], ...) is taken for an image of that format.  No suffix can be
    inserted in it: the three sized variants are written one over the
    other at [sizes/<filename>], and the webp variant at
    [webp/<filename>]. *)
Theorem dotless_name_collides (bucket : value) (filename : string)
  (obj : S3Object) (st : state) :
  JsString.no_dot filename = true ->
  In (JsString.toLowerCase filename) ["jpg"; "jpeg"; "png"; "webp"] ->
  cooperative bucket ("original/" ++ filename) st obj ->
  exists st',
    process_item bucket ("original/" ++ filename) st = (st', Ok tt) /\
    written_keys (trace st')
    = (written_keys (trace st)
       ++ [("optimized/" ++ filename)%string; ("thumbnails/" ++ filename)%string;
           ("sizes/" ++ filename)%string; ("sizes/" ++ filename)%string;
           ("sizes/" ++ filename)%string; ("webp/" ++ filename)%string])%list.
Proof.
  intros Hnd Hext Hcoop. rewrite <- (no_dot_extension _ Hnd) in Hext.
  destruct (process_item_writes_all _ _ _ _ Hext Hcoop) as (st' & Hrun & Hkeys).
  exists st'. split; [exact Hrun|]. rewrite Hkeys.
  unfold variant_keys, JsString.replace_ext_suffix, JsString.replace_ext_webp.
  now rewrite (no_dot_match_ext _ Hnd).
Qed.

Lemma append_inj_l (p a b : string) : (p ++ a = p ++ b)%string -> a = b.
Proof.
  induction p as [|c p IH]; simpl; [auto|]. intros H. injection H as H. auto.
Qed.

(** For a file name with an extension the six variants have six different
    keys. *)
Theorem variant_keys_distinct (bucket : value) (name ext : string)
  (obj : S3Object) (st : state) :
  JsString.nonempty ext = true ->
  JsString.no_dot ext = true ->
  In (JsString.toLowerCase ext) ["jpg"; "jpeg"; "png"; "webp"] ->
  cooperative bucket ("original/" ++ name ++ "." ++ ext) st obj ->
  exists st' keys,
    process_item bucket ("original/" ++ name ++ "." ++ ext) st = (st', Ok tt) /\
    written_keys (trace st') = (written_keys (trace st) ++ keys)%list /\
    List.length keys = 6 /\ NoDup keys.
Proof.
  intros Hne Hnd Hext Hcoop.
  assert (Hext' : In (extension_of (name ++ "." ++ ext))
                     ["jpg"; "jpeg"; "png"; "webp"]).
  { unfold extension_of. now rewrite (pop_split_ext _ _ Hnd). }
  destruct (process_item_writes_all _ _ _ _ Hext' Hcoop) as (st' & Hrun & Hkeys).
  exists st', (variant_keys (name ++ "." ++ ext)).
  split; [exact Hrun|]. split; [exact Hkeys|]. split; [reflexivity|].
  unfold variant_keys.
  rewrite !(replace_ext_suffix_app _ _ _ Hne Hnd), (replace_ext_webp_app _ _ Hne Hnd).
  repeat (apply NoDup_cons;
          [cbn [In]; intros H; repeat (destruct H as [H|H]);
           try contradiction; try discriminate;
           apply append_inj_l, append_inj_l in H; discriminate H|]).
  apply NoDup_nil.
Qed.

End VariantKeys.

(** ** Sources that share a destination, and the URLs of the README *)

Section SharedKeys.

Context {E : Env}.

(** Two sources that differ in their extension alone ([photo.jpg] and
    [photo.png]) share the key of their webp variant: each run ends by
    writing [webp/<name>.webp]. *)
Theorem webp_key_shared (bucket : value) (name ext1 ext2 : string)
  (obj1 obj2 : S3Object) (st1 st2 : state) :
  JsString.nonempty ext1 = true -> JsString.no_dot ext1 = true ->
  JsString.nonempty ext2 = true -> JsString.no_dot ext2 = true ->
  In (JsString.toLowerCase ext1) ["jpg"; "jpeg"; "png"; "webp"] ->
  In (JsString.toLowerCase ext2) ["jpg"; "jpeg"; "png"; "webp"] ->
  cooperative bucket ("original/" ++ name ++ "." ++ ext1) st1 obj1 ->
  cooperative bucket ("original/" ++ name ++ "." ++ ext2) st2 obj2 ->
  exists st1' st2',
    process_item bucket ("original/" ++ name ++ "." ++ ext1) st1 = (st1', Ok tt) /\
    process_item bucket ("original/" ++ name ++ "." ++ ext2) st2 = (st2', Ok tt) /\
    List.last (written_keys (trace st1')) EmptyString
    = ("webp/" ++ name ++ ".webp")%string /\
    List.last (written_keys (trace st2')) EmptyString
    = ("webp/" ++ name ++ ".webp")%string.
Proof.
  intros Hne1 Hnd1 Hne2 Hnd2 Hext1 Hext2 Hc1 Hc2.
  assert (Hone : forall ext obj st,
             JsString.nonempty ext = true -> JsString.no_dot ext = true ->
             In (JsString.toLowerCase ext) ["jpg"; "jpeg"; "png"; "webp"] ->
             cooperative bucket ("original/" ++ name ++ "." ++ ext) st obj ->
             exists st',
               process_item bucket ("original/" ++ name ++ "." ++ ext) st
               = (st', Ok tt) /\
               List.last (written_keys (trace st')) EmptyString
               = ("webp/" ++ name ++ ".webp")%string).
  { intros ext obj st Hne Hnd Hext Hc.
    assert (Hext' : In (extension_of (name ++ "." ++ ext))
                       ["jpg"; "jpeg"; "png"; "webp"]).
    { unfold extension_of. now rewrite (pop_split_ext _ _ Hnd). }
    destruct (process_item_writes_all _ _ _ _ Hext' Hc) as (st' & Hrun & Hkeys).
    exists st'. split; [exact Hrun|]. rewrite Hkeys. unfold variant_keys.
    rewrite (replace_ext_webp_app _ _ Hne Hnd).
    change [?a; ?b; ?c; ?d; ?e; ?f] with ([a; b; c; d; e] ++ [f])%list.
    rewrite List.app_assoc. apply last_last. }
  destruct (Hone _ _ _ Hne1 Hnd1 Hext1 Hc1) as (st1' & Hr1 & Hl1).
  destruct (Hone _ _ _ Hne2 Hnd2 Hext2 Hc2) as (st2' & Hr2 & Hl2).
  exists st1', st2'. auto.
Qed.

(** The URLs that [getImageUrl] gives for the types optimized, thumbnail,
    size (small, medium, large) and webp are the base URL followed by the
    keys of the six objects written for the file, in the order of the
    writes. *)
Theorem urls_name_the_written_objects (bucket : value) (filename : string)
  (obj : S3Object) (w : World) :
  In (extension_of filename) ["jpg"; "jpeg"; "png"; "webp"] ->
  cooperative bucket ("original/" ++ filename) (mkState w []) obj ->
  map (fun key => (baseUrl ++ "/" ++ key)%string)
      (written_keys
         (trace (fst (run (process_item bucket ("original/" ++ filename)) w))))
  = [getImageUrl filename "optimized" None;
     getImageUrl filename "thumbnail" None;
     getImageUrl filename "size" (Some "small");
     getImageUrl filename "size" (Some "medium");
     getImageUrl filename "size" (Some "large");
     getImageUrl filename "webp" None].
Proof.
  intros Hext Hc.
  destruct (process_item_writes_all _ _ _ _ Hext Hc) as (st' & Hrun & Hkeys).
  unfold run. rewrite Hrun. cbn [fst]. rewrite Hkeys. reflexivity.
Qed.

(** The README also gives a URL under [square-thumbnails/]; the handler
    writes no such object: no key it writes is named by a URL of the type
    square-thumbnail. *)
Theorem square_thumbnails_never_written (bucket : value) (key : string)
  (w : World) (r : PutRequest) (filename : string) (size : option string) :
  In (PutObject r) (trace (fst (run (process_item bucket key) w))) ->
  getImageUrl filename "square-thumbnail" size
  <> (baseUrl ++ "/" ++ put_Key r)%string.
Proof.
  intros Hin Heq.
  destruct (process_item_write_in _ _ _ _ Hin) as (obj & Hreq).
  unfold getImageUrl in Heq. cbn [String.eqb Ascii.eqb Bool.eqb] in Heq.
  change (baseUrl ++ "/square-thumbnails/" ++ filename)%string
    with (baseUrl ++ "/" ++ "square-thumbnails/" ++ filename)%string in Heq.
  apply append_inj_l, append_inj_l in Heq.
  destruct Hreq; cbn [put_Key] in Heq; discriminate Heq.
Qed.

End SharedKeys.

(** ** Runs that stop half way *)

Section PartialRuns.

Context {E : Env}.

Lemma Promise_all_cons {A} (m : M A) ms st st1 r :
  m st = (st1, r) ->
  Promise_all (m :: ms) st =
  (fst (Promise_all ms st1),
   match r with
   | Ok a => match snd (Promise_all ms st1) with
             | Ok l => Ok (a :: l)
             | Throw e => Throw e
             end
   | Throw e => Throw e
   end).
Proof.
  unfold Promise_all. simpl. intros ->.
  destruct (settle_all ms st1) as [st2 rs]. simpl. now destruct r.
Qed.

Lemma optimize_ops_not_webp md enc : optimize_ops md ++ [enc] <> webp_ops.
Proof. unfold optimize_ops. destruct (_ || _); discriminate. Qed.

Lemma webp_failure_object (bucket : value) (filename : string)
  (obj : S3Object) (md : ImageMetadata) (enc : list sharp_op -> buffer)
  (after_put : World -> PutRequest -> World) (e : error) (st : state)
  (w1 : World) :
  In (extension_of filename) ["jpg"; "jpeg"; "png"; "webp"] ->
  s3_getObject (world st) bucket ("original/" ++ filename) = (w1, Ok obj) ->
  JsString.startsWith (or_else (ContentType obj) EmptyString) "image/" = true ->
  sharp_metadata (Body obj) = Ok md ->
  sharp_toBuffer (Body obj) webp_ops = Throw e ->
  (forall ops, ops <> webp_ops -> sharp_toBuffer (Body obj) ops = Ok (enc ops)) ->
  (forall w req, s3_putObject w req = (after_put w req, Ok tt)) ->
  exists st',
    process_object bucket ("original/" ++ filename) st = (st', Throw e) /\
    written_keys (trace st')
    = (written_keys (trace st) ++ firstn 5 (variant_keys filename))%list.
Proof.
  intros Hext Hget Hct Hmeta Hwebp Hcodec Hput.
  unfold process_object.
  rewrite (bind_ok _ _ _ _ _ (getObject_run _ _ _ _ _ Hget)).
  rewrite replace_prefix.
  change (EmptyString ++ filename)%string with filename.
  rewrite (supported_codec_formats _ Hext), Hct. cbn [negb].
  match goal with
  | |- context [bind (optimizeImage ?i ?x) ?f ?s] =>
      destruct (optimizeImage_encodes i x md s Hmeta Hext) as (en & _ & Hrun);
      rewrite (Hcodec _ (optimize_ops_not_webp md en)) in Hrun;
      rewrite (bind_ok _ _ _ _ _ Hrun); clear Hrun
  end.
  cbn [world trace].
  unfold createThumbnail, createResizedImage, convertToWebP.
  erewrite bind_ok by (apply toBuffer_ok, Hcodec; discriminate).
  cbn [world trace]. unfold sizes. cbn [map fst snd].
  erewrite bind_ok.
  2:{ repeat (eapply Promise_all_cons_ok;
              [erewrite bind_ok by (apply toBuffer_ok, Hcodec; discriminate);
               reflexivity|]).
      apply Promise_all_nil. }
  cbn [world trace map fst snd].
  erewrite bind_ok by (apply putObject_run, Hput). cbn [world trace].
  erewrite bind_ok by (apply putObject_run, Hput). cbn [world trace].
  erewrite bind_ok.
  2:{ repeat (eapply Promise_all_cons_ok; [apply putObject_run, Hput|]).
      apply Promise_all_nil. }
  cbn [world trace].
  erewrite bind_throw by (rewrite toBuffer_run, Hwebp; reflexivity).
  eexists. split; [reflexivity|]. cbn [world trace].
  rewrite !written_keys_app.
  cbn [written_keys put_requests flat_map map app put_Key firstn variant_keys].
  rewrite !app_nil_r, <- !List.app_assoc. reflexivity.
Qed.

Lemma sized_write_failure_object (bucket : value) (filename : string)
  (obj : S3Object) (md : ImageMetadata) (enc : list sharp_op -> buffer)
  (after_put : World -> PutRequest -> World) (e : error) (st : state)
  (w1 : World) :
  In (extension_of filename) ["jpg"; "jpeg"; "png"; "webp"] ->
  s3_getObject (world st) bucket ("original/" ++ filename) = (w1, Ok obj) ->
  JsString.startsWith (or_else (ContentType obj) EmptyString) "image/" = true ->
  sharp_metadata (Body obj) = Ok md ->
  (forall ops, sharp_toBuffer (Body obj) ops = Ok (enc ops)) ->
  (forall w req,
      s3_putObject w req =
      (after_put w req,
       if JsString.startsWith (put_Key req) "sizes/" then Throw e else Ok tt)) ->
  exists st',
    process_object bucket ("original/" ++ filename) st = (st', Throw e) /\
    written_keys (trace st')
    = (written_keys (trace st) ++ firstn 5 (variant_keys filename))%list /\
    List.length (codec_pipelines (trace st'))
    = List.length (codec_pipelines (trace st)) + 5.
Proof.
  intros Hext Hget Hct Hmeta Hcodec Hput.
  unfold process_object.
  rewrite (bind_ok _ _ _ _ _ (getObject_run _ _ _ _ _ Hget)).
  rewrite replace_prefix.
  change (EmptyString ++ filename)%string with filename.
  rewrite (supported_codec_formats _ Hext), Hct. cbn [negb].
  match goal with
  | |- context [bind (optimizeImage ?i ?x) ?f ?s] =>
      destruct (optimizeImage_run i x md s Hmeta Hext) as (ops & Hrun);
      rewrite Hcodec in Hrun; rewrite (bind_ok _ _ _ _ _ Hrun); clear Hrun
  end.
  cbn [world trace].
  unfold createThumbnail, createResizedImage.
  erewrite bind_ok by (apply toBuffer_ok, Hcodec).
  cbn [world trace]. unfold sizes. cbn [map fst snd].
  erewrite bind_ok.
  2:{ repeat (eapply Promise_all_cons_ok;
              [erewrite bind_ok by (apply toBuffer_ok, Hcodec); reflexivity|]).
      apply Promise_all_nil. }
  cbn [world trace map fst snd].
  assert (Hok : forall w req,
             JsString.startsWith (put_Key req) "sizes/" = false ->
             s3_putObject w req = (after_put w req, Ok tt)).
  { intros w req H. now rewrite Hput, H. }
  assert (Hno : forall w req,
             JsString.startsWith (put_Key req) "sizes/" = true ->
             s3_putObject w req = (after_put w req, Throw e)).
  { intros w req H. now rewrite Hput, H. }
  erewrite bind_ok by (apply putObject_run, Hok; reflexivity).
  cbn [world trace].
  erewrite bind_ok by (apply putObject_run, Hok; reflexivity).
  cbn [world trace].
  erewrite bind_throw.
  2:{ erewrite Promise_all_cons by (apply putObject_run, Hno; reflexivity).
      cbn [world trace].
      erewrite Promise_all_cons by (apply putObject_run, Hno; reflexivity).
      cbn [world trace].
      erewrite Promise_all_cons by (apply putObject_run, Hno; reflexivity).
      cbn [world trace]. rewrite Promise_all_nil. cbn [fst snd].
      reflexivity. }
  eexists. split; [reflexivity|]. cbn [world trace]. split.
  - rewrite !written_keys_app.
    cbn [written_keys put_requests flat_map map app put_Key firstn variant_keys].
    rewrite !app_nil_r, <- !List.app_assoc. reflexivity.
  - unfold codec_pipelines. rewrite !flat_map_app, !length_app. simpl. lia.
Qed.

Lemma process_item_rethrows bucket key st st' e :
  JsString.startsWith key "original/" = true ->
  process_object bucket key st = (st', Throw e) ->
  process_item bucket key st =
  (mkState (world st')
           (trace st' ++ [ConsoleError ("Error processing " ++ key ++ ":") e]),
   Throw e).
Proof.
  intros Hp Hthrow. unfold process_item. rewrite Hp. cbn [negb].
  now rewrite (try_catch_throw _ _ _ _ _ Hthrow).
Qed.

Lemma written_keys_console tr label e :
  written_keys (tr ++ [ConsoleError label e]) = written_keys tr.
Proof. rewrite written_keys_app. simpl. now rewrite app_nil_r. Qed.

Lemma codec_pipelines_console tr label e :
  codec_pipelines (tr ++ [ConsoleError label e]) = codec_pipelines tr.
Proof.
  unfold codec_pipelines. rewrite flat_map_app. simpl. now rewrite app_nil_r.
Qed.

(** The webp transform comes after the five other writes: when it alone
    fails, the run throws its error and leaves the optimized, thumbnail
    and sized objects written, without a webp object. *)
Theorem webp_failure_leaves_five (bucket : value) (filename : string)
  (obj : S3Object) (md : ImageMetadata) (enc : list sharp_op -> buffer)
  (after_put : World -> PutRequest -> World) (e : error) (st : state)
  (w1 : World) :
  In (extension_of filename) ["jpg"; "jpeg"; "png"; "webp"] ->
  s3_getObject (world st) bucket ("original/" ++ filename) = (w1, Ok obj) ->
  JsString.startsWith (or_else (ContentType obj) EmptyString) "image/" = true ->
  sharp_metadata (Body obj) = Ok md ->
  sharp_toBuffer (Body obj) webp_ops = Throw e ->
  (forall ops, ops <> webp_ops -> sharp_toBuffer (Body obj) ops = Ok (enc ops)) ->
  (forall w req, s3_putObject w req = (after_put w req, Ok tt)) ->
  exists st',
    process_item bucket ("original/" ++ filename) st = (st', Throw e) /\
    written_keys (trace st')
    = (written_keys (trace st) ++ firstn 5 (variant_keys filename))%list.
Proof.
  intros Hext Hget Hct Hmeta Hwebp Hcodec Hput.
  destruct (webp_failure_object bucket filename obj md enc after_put e st w1)
    as (st' & Hrun & Hkeys); auto.
  eexists. split.
  - apply process_item_rethrows; [apply startsWith_app|exact Hrun].
  - cbn [trace]. now rewrite written_keys_console.
Qed.

(** The three sized writes are started together: when S3 refuses the
    writes under [sizes/], all three are still issued, the run throws,
    and the webp variant is neither computed nor written. *)
Theorem sized_write_failure (bucket : value) (filename : string)
  (obj : S3Object) (md : ImageMetadata) (enc : list sharp_op -> buffer)
  (after_put : World -> PutRequest -> World) (e : error) (st : state)
  (w1 : World) :
  In (extension_of filename) ["jpg"; "jpeg"; "png"; "webp"] ->
  s3_getObject (world st) bucket ("original/" ++ filename) = (w1, Ok obj) ->
  JsString.startsWith (or_else (ContentType obj) EmptyString) "image/" = true ->
  sharp_metadata (Body obj) = Ok md ->
  (forall ops, sharp_toBuffer (Body obj) ops = Ok (enc ops)) ->
  (forall w req,
      s3_putObject w req =
      (after_put w req,
       if JsString.startsWith (put_Key req) "sizes/" then Throw e else Ok tt)) ->
  exists st',
    process_item bucket ("original/" ++ filename) st = (st', Throw e) /\
    written_keys (trace st')
    = (written_keys (trace st) ++ firstn 5 (variant_keys filename))%list /\
    List.length (codec_pipelines (trace st'))
    = List.length (codec_pipelines (trace st)) + 5.
Proof.
  intros Hext Hget Hct Hmeta Hcodec Hput.
  destruct (sized_write_failure_object bucket filename obj md enc after_put e
                                       st w1)
    as (st' & Hrun & Hkeys & Hpipes); auto.
  eexists. split.
  - apply process_item_rethrows; [apply startsWith_app|exact Hrun].
  - cbn [trace]. now rewrite written_keys_console, codec_pipelines_console.
Qed.

(** The fetch comes before the extension and content-type checks: for a
    key under [original/] a failing fetch ends the run with its error,
    whatever the extension, where a successful fetch of an unsupported
    file would have been a skip. *)
Theorem fetch_error_before_checks (bucket : value) (key : string) (st : state)
  (w1 : World) (e : error) :
  JsString.startsWith key "original/" = true ->
  s3_getObject (world st) bucket key = (w1, Throw e) ->
  process_item bucket key st =
  (mkState w1 (trace st ++ [GetObject bucket key;
                            ConsoleError ("Error processing " ++ key ++ ":") e]),
   Throw e).
Proof.
  intros Hp Hget. unfold process_item. rewrite Hp. cbn [negb].
  rewrite (try_catch_throw _ _ _ _ _ (fetch_failure_throws _ _ _ _ _ Hget)).
  unfold bind, emit, throw. cbn [world trace]. now rewrite <- List.app_assoc.
Qed.

(** A record from which the bucket and the key cannot be read (no [s3],
    a key that is not a string, a malformed escape) ends the run with the
    [TypeError] or [URIError]: nothing is fetched for it, the error is not
    logged by the handler, and the records after it are not looked at. *)
Theorem unreadable_record_throws (event : object) (pre post : list value)
  (record : value) (w : World) (st1 : state) (e : error) :
  selected event = inr (pre ++ record :: post) ->
  run (for_of pre process_record) w = (st1, Ok tt) ->
  record_target record = Throw e ->
  run (handler event) w = (st1, Throw e).
Proof.
  intros Hsel Hpre Htarget. unfold run in *.
  rewrite (handler_of_records _ _ _ Hsel) by now destruct pre.
  apply bind_throw. eapply for_of_throw; [exact Hpre|].
  unfold process_record, bind, lift. now rewrite Htarget.
Qed.

End PartialRuns.

(** ** Events with nothing to process, and the responses *)

Section Responses.

Context {E : Env}.

Lemma selected_nonempty event records :
  selected event = inr records -> records <> [].
Proof.
  unfold selected. destruct (Spec.classify event) eqn:Hc; try discriminate.
  - intros H. injection H as <-. discriminate.
  - intros H. injection H as <-. eapply classify_batch_nonempty; eauto.
Qed.

Lemma for_of_all_skipped (records : list value) st :
  Forall (fun record =>
            exists bucket key,
              record_target record = Ok (bucket, key) /\
              JsString.startsWith key "original/" = false) records ->
  exists tr,
    for_of records process_record st = (mkState (world st) (trace st ++ tr), Ok tt) /\
    Forall (fun c => exists key, c = ConsoleLog "Skipping non-original file:" key) tr.
Proof.
  intros H. revert st. induction H as [|r rs (bucket & key & Ht & Hp) _ IH];
    intros st.
  - exists []. simpl. rewrite app_nil_r. now destruct st.
  - destruct (IH (mkState (world st)
                          (trace st ++ [ConsoleLog "Skipping non-original file:" key])))
      as (tr & Hrun & Hall).
    exists (ConsoleLog "Skipping non-original file:" key :: tr). split.
    + erewrite for_of_cons_ok.
      * rewrite Hrun. cbn [world trace]. now rewrite <- List.app_assoc.
      * rewrite (process_record_target _ _ _ _ Ht).
        now apply process_item_skip_prefix.
    + constructor; eauto.
Qed.

(** An event whose records all name keys outside [original/] is answered
    with status 200 and "Images processed successfully", although nothing
    was fetched, transformed or written: the trace holds the console lines
    of the skips only, and the world is as it was. *)
Theorem nothing_under_original_is_success (event : object)
  (records : list value) (w : World) :
  selected event = inr records ->
  Forall (fun record =>
            exists bucket key,
              record_target record = Ok (bucket, key) /\
              JsString.startsWith key "original/" = false) records ->
  exists tr,
    run (handler event) w =
    (mkState w tr, Ok (message_response "Images processed successfully")) /\
    Forall (fun c => exists key, c = ConsoleLog "Skipping non-original file:" key) tr.
Proof.
  intros Hsel Hall. unfold run.
  rewrite (handler_of_records _ _ _ Hsel) by (eapply selected_nonempty; eauto).
  destruct (for_of_all_skipped records (mkState w []) Hall) as (tr & Hrun & Htr).
  exists tr. split; [|exact Htr].
  now rewrite (bind_ok _ _ _ _ _ Hrun).
Qed.

(** The handler returns one of three responses: the answer to the test
    event, the 400 of an invalid event, or "Images processed
    successfully".  The response "No records to process" of line 55 is
    never returned. *)
Theorem three_responses (event : object) (w : World) (st' : state)
  (response : Response) :
  run (handler event) w = (st', Ok response) ->
  (response = working_response /\ trace st' = []) \/
  (response = invalid_response event /\ trace st' = []) \/
  response = message_response "Images processed successfully".
Proof.
  unfold run, handler.
  rewrite (bind_ok _ _ _ _ _ (select_records_pure event (mkState w []))).
  unfold selected.
  destruct (Spec.classify event) as [b k|rs| |] eqn:Hc.
  - unfold bind. destruct (for_of _ _ _) as [st1 [[]|e]]; [|discriminate].
    intros H. injection H as _ <-. auto.
  - apply classify_batch_nonempty in Hc. destruct rs as [|r rs]; [congruence|].
    unfold bind. destruct (for_of _ _ _) as [st1 [[]|e]]; [|discriminate].
    intros H. injection H as _ <-. auto.
  - intros H. injection H as <- <-. auto.
  - intros H. injection H as <- <-. auto.
Qed.

End Responses.

(** ** Keys and their escapes *)

Section Keys.

Lemma tokens_plain s :
  mentions "%" s = false ->
  Uri.tokens s = Some (map Uri.Lit (list_ascii_of_string s)).
Proof.
  induction s as [|c s IH]; simpl; [reflexivity|].
  destruct (Ascii.eqb c "%"); [discriminate|].
  intros H. now rewrite (IH H).
Qed.

Lemma assemble_literals l :
  Uri.assemble [] 0 (map Uri.Lit l) = Some l.
Proof. induction l as [|c l IH]; simpl; [reflexivity|]. now rewrite IH. Qed.

(** A string without [%] decodes to itself. *)
Lemma decode_plain s :
  mentions "%" s = false -> decodeURIComponent s = Ok s.
Proof.
  intros H. unfold decodeURIComponent, Uri.decode.
  rewrite (tokens_plain _ H), assemble_literals. simpl.
  now rewrite string_of_list_ascii_of_string.
Qed.

Lemma plus_to_space_plain s :
  mentions "+" s = false -> JsString.plus_to_space s = s.
Proof.
  induction s as [|c s IH]; simpl; [reflexivity|].
  destruct (Ascii.eqb c "+"); [discriminate|].
  intros H. now rewrite (IH H).
Qed.

(** A key of the event that holds neither [+] nor [%] is the key of the
    object as it stands. *)
Theorem plain_key_unchanged (record bucket : value) (rawkey : string) :
  describes record bucket rawkey ->
  mentions "+" rawkey = false ->
  mentions "%" rawkey = false ->
  record_target record = Ok (bucket, rawkey).
Proof.
  intros Hrec Hplus Hpct.
  rewrite (record_target_describes _ _ _ Hrec), (plus_to_space_plain _ Hplus).
  now rewrite (decode_plain _ Hpct).
Qed.

Lemma tokens_trailing_percent n : forall s,
  String.length s <= n -> Uri.tokens (s ++ "%") = None.
Proof.
  induction n as [|n IH]; intros s Hlen.
  - destruct s; [reflexivity|simpl in Hlen; lia].
  - destruct s as [|c s]; [reflexivity|].
    simpl in Hlen. cbn [String.append Uri.tokens].
    destruct (Ascii.eqb c "%").
    + destruct s as [|h s]; [reflexivity|]. cbn [String.append].
      destruct s as [|l s].
      * cbn [String.append]. destruct (Uri.hex_digit h); reflexivity.
      * cbn [String.append]. simpl in Hlen.
        rewrite (IH s) by lia.
        destruct (Uri.hex_digit h); [|reflexivity].
        destruct (Uri.hex_digit l); reflexivity.
    + rewrite (IH s) by lia. reflexivity.
Qed.

Lemma plus_to_space_app a b :
  JsString.plus_to_space (a ++ b)
  = (JsString.plus_to_space a ++ JsString.plus_to_space b)%string.
Proof. induction a as [|c a IH]; simpl; [reflexivity|]. now rewrite IH. Qed.

(** A key of the event that ends in [%] cannot be decoded: the record
    gives a [URIError], whatever comes before the [%]. *)
Theorem trailing_percent_is_malformed (record bucket : value) (prefix : string) :
  describes record bucket (prefix ++ "%") ->
  record_target record = Throw (URIError "URI malformed").
Proof.
  intros Hrec. rewrite (record_target_describes _ _ _ Hrec), plus_to_space_app.
  change (JsString.plus_to_space "%") with "%".
  unfold decodeURIComponent, Uri.decode.
  now rewrite (tokens_trailing_percent _ _ (Nat.le_refl _)).
Qed.

End Keys.

(** ** A whole batch *)

Section Batches.

Context {E : Env}.

Lemma for_of_all_written (items : list (value * (value * string))) st :
  Forall (fun item =>
            record_target (fst item)
            = Ok (fst (snd item), ("original/" ++ snd (snd item))%string) /\
            In (extension_of (snd (snd item))) ["jpg"; "jpeg"; "png"; "webp"] /\
            forall st, exists obj,
                cooperative (fst (snd item)) ("original/" ++ snd (snd item)) st obj)
         items ->
  exists st',
    for_of (map fst items) process_record st = (st', Ok tt) /\
    written_keys (trace st')
    = (written_keys (trace st)
       ++ flat_map (fun item => variant_keys (snd (snd item))) items)%list.
Proof.
  intros H. revert st.
  induction H as [|[record [bucket filename]] items (Ht & Hext & Hc) _ IH];
    intros st; cbn [fst snd] in *.
  - exists st. simpl. now rewrite app_nil_r.
  - destruct (Hc st) as (obj & Hcoop).
    destruct (process_item_writes_all _ _ _ _ Hext Hcoop) as (st1 & Hrun & Hkeys).
    destruct (IH st1) as (st' & Hrest & Hkeys').
    exists st'. split.
    + cbn [map fst]. erewrite for_of_cons_ok; [exact Hrest|].
      now rewrite (process_record_target _ _ _ _ Ht).
    + rewrite Hkeys', Hkeys. cbn [flat_map snd].
      now rewrite <- List.app_assoc.
Qed.

(** With S3 and the codec answering, a batch of records that name images
    the optimizer knows is processed in the order of the records: the run
    returns "Images processed successfully" and has written the six
    objects of the first record, then those of the second, and so on. *)
Theorem batch_written_in_order (event : object)
  (items : list (value * (value * string))) (w : World) :
  selected event = inr (map fst items) ->
  Forall (fun item =>
            record_target (fst item)
            = Ok (fst (snd item), ("original/" ++ snd (snd item))%string) /\
            In (extension_of (snd (snd item))) ["jpg"; "jpeg"; "png"; "webp"] /\
            forall st, exists obj,
                cooperative (fst (snd item)) ("original/" ++ snd (snd item)) st obj)
         items ->
  exists st',
    run (handler event) w
    = (st', Ok (message_response "Images processed successfully")) /\
    written_keys (trace st')
    = flat_map (fun item => variant_keys (snd (snd item))) items.
Proof.
  intros Hsel Hall. unfold run.
  rewrite (handler_of_records _ _ _ Hsel) by (eapply selected_nonempty; eauto).
  destruct (for_of_all_written items (mkState w []) Hall) as (st' & Hrun & Hkeys).
  exists st'. split; [|exact Hkeys].
  now rewrite (bind_ok _ _ _ _ _ Hrun).
Qed.

End Batches.

(** ** Concrete runs of the properties above *)

Lemma memory_cooperative bucket key contentType s st :
  Memory.find key s = Some (Memory.image contentType) ->
  JsString.startsWith contentType "image/" = true ->
  @world (Memory.env true) st = s ->
  @cooperative (Memory.env true) bucket key st (Memory.image contentType).
Proof.
  intros Hfind Hct Hw.
  exists s, (mkImageMetadata (Some 2000) (Some 1500)),
    (fun _ => Body (Memory.image contentType)),
    (fun w req => Memory.stored req w).
  repeat split.
  - simpl. rewrite Hw. unfold Memory.get. now rewrite Hfind.
  - simpl. destruct contentType; [discriminate|exact Hct].
Qed.

Lemma uniform_cooperative bucket key contentType st :
  JsString.startsWith contentType "image/" = true ->
  @cooperative (uniform_env (Memory.image contentType)) bucket key st
               (Memory.image contentType).
Proof.
  intros Hct.
  exists tt, (mkImageMetadata (Some 2000) (Some 1500)),
    (fun _ => Body (Memory.image contentType)), (fun w _ => w).
  repeat split.
  - simpl. now destruct (@world (uniform_env (Memory.image contentType)) st).
  - simpl. destruct contentType; [discriminate|exact Hct].
Qed.

Lemma writes_confined_witness :
  put_Bucket (mkPut (VString "photos") "thumbnails/photo.JPG"
                    [255; 216; 255; 224] "image/jpeg" cacheControl None)
  = VString "photos" /\
  put_CacheControl (mkPut (VString "photos") "thumbnails/photo.JPG"
                          [255; 216; 255; 224] "image/jpeg" cacheControl None)
  = "max-age=31536000" /\
  existsb (JsString.startsWith "thumbnails/photo.JPG")
          ["optimized/"; "thumbnails/"; "sizes/"; "webp/"] = true.
Proof.
  apply (@writes_confined (Memory.env true) (VString "photos")
           "original/photo.JPG"
           [("original/photo.JPG", Memory.image "image/jpeg")]
           (mkPut (VString "photos") "thumbnails/photo.JPG"
                  [255; 216; 255; 224] "image/jpeg" cacheControl None)).
  vm_compute. tauto.
Defined.

Lemma size_metadata_of_optimized_witness :
  put_Metadata (mkPut (VString "photos") "optimized/photo.JPG"
                      [255; 216; 255; 224] "image/jpeg" cacheControl
                      (Some (mkSizeMetadata 4 4)))
  = Some (mkSizeMetadata 4 4).
Proof.
  apply (@size_metadata_of_optimized (Memory.env true) (VString "photos")
           "original/photo.JPG"
           [("original/photo.JPG", Memory.image "image/jpeg")]
           [("original/photo.JPG", Memory.image "image/jpeg")]
           (Memory.image "image/jpeg")
           (mkPut (VString "photos") "optimized/photo.JPG"
                  [255; 216; 255; 224] "image/jpeg" cacheControl
                  (Some (mkSizeMetadata 4 4)))).
  - reflexivity.
  - vm_compute. tauto.
Defined.

Lemma stored_bodies_are_codec_outputs_witness :
  exists ops,
    @sharp_toBuffer (Memory.env true) [255; 216; 255; 224] ops
    = Ok [255; 216; 255; 224] /\
    ops = thumbnail_ops "jpg".
Proof.
  destruct (@stored_bodies_are_codec_outputs (Memory.env true) (VString "photos")
              "original/photo.JPG"
              [("original/photo.JPG", Memory.image "image/jpeg")]
              [("original/photo.JPG", Memory.image "image/jpeg")]
              (Memory.image "image/jpeg")
              (mkPut (VString "photos") "thumbnails/photo.JPG"
                     [255; 216; 255; 224] "image/jpeg" cacheControl None)
              eq_refl)
    as (ops & Hout & _ & Hthumb & _).
  - vm_compute. tauto.
  - exists ops. split; [exact Hout|]. now apply Hthumb.
Defined.

Lemma transforms_read_the_source_witness :
  [255; 216; 255; 224] = Body (Memory.image "image/jpeg") /\
  recipe "jpg" (resized_ops "jpg" 640) /\
  Forall never_enlarges (resized_ops "jpg" 640).
Proof.
  apply (@transforms_read_the_source (Memory.env true) (VString "photos")
           "original/photo.JPG"
           [("original/photo.JPG", Memory.image "image/jpeg")]
           [("original/photo.JPG", Memory.image "image/jpeg")]
           (Memory.image "image/jpeg")).
  - reflexivity.
  - vm_compute. tauto.
Defined.

Lemma no_write_before_transforms_witness :
  @transforms_done (Memory.env true) (Memory.image "image/jpeg") "jpg".
Proof.
  apply (@no_write_before_transforms (Memory.env true) (VString "photos")
           "original/photo.JPG"
           [("original/photo.JPG", Memory.image "image/jpeg")]
           [("original/photo.JPG", Memory.image "image/jpeg")]
           (Memory.image "image/jpeg")
           (mkPut (VString "photos") "webp/photo.webp"
                  [255; 216; 255; 224] "image/webp" cacheControl None)).
  - reflexivity.
  - vm_compute. tauto.
Defined.

Lemma dotless_name_collides_witness :
  exists st',
    @process_item (Memory.env true) (VString "photos") "original/JPG"
                  (Memory.start true [("original/JPG", Memory.image "image/jpeg")])
    = (st', Ok tt) /\
    written_keys (trace st')
    = ["optimized/JPG"; "thumbnails/JPG"; "sizes/JPG"; "sizes/JPG"; "sizes/JPG";
       "webp/JPG"].
Proof.
  apply (@dotless_name_collides (Memory.env true) (VString "photos") "JPG"
           (Memory.image "image/jpeg")
           (Memory.start true [("original/JPG", Memory.image "image/jpeg")])).
  - reflexivity.
  - simpl. auto.
  - now apply memory_cooperative
      with (s := [("original/JPG", Memory.image "image/jpeg")]).
Defined.

Lemma variant_keys_distinct_witness :
  exists st' keys,
    @process_item (Memory.env true) (VString "photos") "original/photo.JPG"
                  (Memory.start true [("original/photo.JPG", Memory.image "image/jpeg")])
    = (st', Ok tt) /\
    written_keys (trace st') = keys /\
    List.length keys = 6 /\ NoDup keys.
Proof.
  apply (@variant_keys_distinct (Memory.env true) (VString "photos") "photo" "JPG"
           (Memory.image "image/jpeg")
           (Memory.start true [("original/photo.JPG", Memory.image "image/jpeg")])).
  - reflexivity.
  - reflexivity.
  - simpl. auto.
  - now apply memory_cooperative
      with (s := [("original/photo.JPG", Memory.image "image/jpeg")]).
Defined.

Lemma webp_key_shared_witness :
  let s := [("original/photo.jpg", Memory.image "image/jpeg");
            ("original/photo.png", Memory.image "image/png")] in
  exists st1' st2',
    @process_item (Memory.env true) (VString "photos") "original/photo.jpg"
                  (Memory.start true s) = (st1', Ok tt) /\
    @process_item (Memory.env true) (VString "photos") "original/photo.png"
                  (Memory.start true s) = (st2', Ok tt) /\
    List.last (written_keys (trace st1')) EmptyString = "webp/photo.webp" /\
    List.last (written_keys (trace st2')) EmptyString = "webp/photo.webp".
Proof.
  intros s.
  apply (@webp_key_shared (Memory.env true) (VString "photos") "photo" "jpg" "png"
           (Memory.image "image/jpeg") (Memory.image "image/png")
           (Memory.start true s) (Memory.start true s));
    try reflexivity; try (simpl; tauto).
  - now apply memory_cooperative with (s := s).
  - now apply memory_cooperative with (s := s).
Defined.

Lemma urls_name_the_written_objects_witness :
  map (fun key => (baseUrl ++ "/" ++ key)%string)
      (written_keys
         (trace (fst (@run (Memory.env true) _
                           (process_item (VString "photos") "original/photo.jpg")
                           [("original/photo.jpg", Memory.image "image/jpeg")]))))
  = ["https://your-cloudfront-domain.com/optimized/photo.jpg";
     "https://your-cloudfront-domain.com/thumbnails/photo.jpg";
     "https://your-cloudfront-domain.com/sizes/photo-small.jpg";
     "https://your-cloudfront-domain.com/sizes/photo-medium.jpg";
     "https://your-cloudfront-domain.com/sizes/photo-large.jpg";
     "https://your-cloudfront-domain.com/webp/photo.webp"].
Proof.
  apply (@urls_name_the_written_objects (Memory.env true) (VString "photos")
           "photo.jpg" (Memory.image "image/jpeg")
           [("original/photo.jpg", Memory.image "image/jpeg")]).
  - simpl. auto.
  - now apply memory_cooperative
      with (s := [("original/photo.jpg", Memory.image "image/jpeg")]).
Defined.

Lemma square_thumbnails_never_written_witness :
  getImageUrl "photo.jpg" "square-thumbnail" None
  <> (baseUrl ++ "/" ++ "thumbnails/photo.jpg")%string.
Proof.
  apply (@square_thumbnails_never_written (Memory.env true) (VString "photos")
           "original/photo.jpg"
           [("original/photo.jpg", Memory.image "image/jpeg")]
           (mkPut (VString "photos") "thumbnails/photo.jpg"
                  [255; 216; 255; 224] "image/jpeg" cacheControl None)
           "photo.jpg" None).
  vm_compute. tauto.
Defined.

Lemma faulty_encode_other ops input :
  ops <> webp_ops -> Faulty.encode input ops = Ok input.
Proof.
  intros H. unfold Faulty.encode.
  destruct ops as [|[] [|]]; try reflexivity.
  unfold Faulty.is_webp_only.
  destruct (Nat.eqb_spec quality 85); [|reflexivity].
  destruct (Nat.eqb_spec effort 6); [|reflexivity].
  subst. now elim H.
Qed.

Lemma webp_failure_leaves_five_witness :
  exists st',
    @process_item Faulty.no_webp_env (VString "photos") "original/photo.jpg"
                  (@mkState Faulty.no_webp_env
                            [("original/photo.jpg", Memory.image "image/jpeg")] [])
    = (st', Throw (SharpError "webp: unsupported")) /\
    written_keys (trace st')
    = ["optimized/photo.jpg"; "thumbnails/photo.jpg"; "sizes/photo-small.jpg";
       "sizes/photo-medium.jpg"; "sizes/photo-large.jpg"].
Proof.
  apply (@webp_failure_leaves_five Faulty.no_webp_env (VString "photos")
           "photo.jpg" (Memory.image "image/jpeg")
           (mkImageMetadata (Some 2000) (Some 1500))
           (fun _ => Body (Memory.image "image/jpeg"))
           (fun s req => Memory.stored req s)
           (SharpError "webp: unsupported")
           (@mkState Faulty.no_webp_env
                     [("original/photo.jpg", Memory.image "image/jpeg")] [])
           [("original/photo.jpg", Memory.image "image/jpeg")]);
    try reflexivity.
  - simpl. auto.
  - intros ops H. now apply faulty_encode_other.
Defined.

Lemma sized_write_failure_witness :
  exists st',
    @process_item Faulty.sizes_denied_env (VString "photos") "original/photo.jpg"
                  (@mkState Faulty.sizes_denied_env
                            [("original/photo.jpg", Memory.image "image/jpeg")] [])
    = (st', Throw (AwsError "AccessDenied")) /\
    written_keys (trace st')
    = ["optimized/photo.jpg"; "thumbnails/photo.jpg"; "sizes/photo-small.jpg";
       "sizes/photo-medium.jpg"; "sizes/photo-large.jpg"] /\
    List.length (codec_pipelines (trace st')) = 5.
Proof.
  apply (@sized_write_failure Faulty.sizes_denied_env (VString "photos")
           "photo.jpg" (Memory.image "image/jpeg")
           (mkImageMetadata (Some 2000) (Some 1500))
           (fun _ => Body (Memory.image "image/jpeg"))
           (fun s _ => s)
           (AwsError "AccessDenied")
           (@mkState Faulty.sizes_denied_env
                     [("original/photo.jpg", Memory.image "image/jpeg")] [])
           [("original/photo.jpg", Memory.image "image/jpeg")]);
    try reflexivity.
  simpl. auto.
Defined.

Lemma fetch_error_before_checks_witness :
  @process_item (Memory.env true) (VString "photos") "original/doc.pdf"
                (Memory.start true [])
  = (@mkState (Memory.env true) []
              [GetObject (VString "photos") "original/doc.pdf";
               ConsoleError "Error processing original/doc.pdf:"
                            (AwsError "NoSuchKey")],
     Throw (AwsError "NoSuchKey")).
Proof.
  exact (@fetch_error_before_checks (Memory.env true) (VString "photos")
           "original/doc.pdf" (Memory.start true []) [] (AwsError "NoSuchKey")
           eq_refl eq_refl).
Defined.

Lemma unreadable_record_throws_witness :
  @run (Memory.env true) _
       (handler (Memory.batch_event
                   [VObject [("eventName", VString "ObjectCreated:Put")];
                    Memory.s3_record "photos" "original/photo.jpg"]))
       [("original/photo.jpg", Memory.image "image/jpeg")]
  = (Memory.start true [("original/photo.jpg", Memory.image "image/jpeg")],
     Throw (TypeError "Cannot read properties of undefined (reading 'bucket')")).
Proof.
  exact (@unreadable_record_throws (Memory.env true)
           (Memory.batch_event
              [VObject [("eventName", VString "ObjectCreated:Put")];
               Memory.s3_record "photos" "original/photo.jpg"])
           [] [Memory.s3_record "photos" "original/photo.jpg"]
           (VObject [("eventName", VString "ObjectCreated:Put")])
           [("original/photo.jpg", Memory.image "image/jpeg")]
           (Memory.start true [("original/photo.jpg", Memory.image "image/jpeg")])
           (TypeError "Cannot read properties of undefined (reading 'bucket')")
           eq_refl eq_refl eq_refl).
Defined.

Lemma nothing_under_original_is_success_witness :
  exists tr,
    @run (Memory.env true) _
         (handler (Memory.batch_event
                     [Memory.s3_record "photos" "thumbnails/x.jpg";
                      Memory.s3_record "photos" "optimized/y.png"]))
         []
    = (@mkState (Memory.env true) [] tr,
       Ok (message_response "Images processed successfully")) /\
    Forall (fun c => exists key, c = ConsoleLog "Skipping non-original file:" key) tr.
Proof.
  apply (@nothing_under_original_is_success (Memory.env true)
           (Memory.batch_event
              [Memory.s3_record "photos" "thumbnails/x.jpg";
               Memory.s3_record "photos" "optimized/y.png"])
           [Memory.s3_record "photos" "thumbnails/x.jpg";
            Memory.s3_record "photos" "optimized/y.png"]
           []).
  - reflexivity.
  - repeat constructor.
    + exists (VString "photos"), "thumbnails/x.jpg". split; reflexivity.
    + exists (VString "photos"), "optimized/y.png". split; reflexivity.
Defined.

Lemma three_responses_witness :
  (working_response = working_response /\
   trace (Memory.start true []) = []) \/
  (working_response = invalid_response [("test", VBool true)] /\
   trace (Memory.start true []) = []) \/
  working_response = message_response "Images processed successfully".
Proof.
  exact (@three_responses (Memory.env true) [("test", VBool true)] []
           (Memory.start true []) working_response eq_refl).
Defined.

Lemma plain_key_unchanged_witness :
  record_target (Memory.s3_record "photos" "original/photo.jpg")
  = Ok (VString "photos", "original/photo.jpg").
Proof.
  apply plain_key_unchanged; [|reflexivity|reflexivity].
  do 4 eexists. repeat (split; [reflexivity|]). reflexivity.
Defined.

Lemma trailing_percent_is_malformed_witness :
  record_target (Memory.s3_record "photos" "original/100%")
  = Throw (URIError "URI malformed").
Proof.
  apply (trailing_percent_is_malformed _ (VString "photos") "original/100").
  do 4 eexists. repeat (split; [reflexivity|]). reflexivity.
Defined.

Lemma batch_written_in_order_witness :
  exists st',
    @run (uniform_env (Memory.image "image/jpeg")) _
         (handler (Memory.batch_event
                     [Memory.s3_record "photos" "original/a.jpg";
                      Memory.s3_record "photos" "original/b.PNG"]))
         tt
    = (st', Ok (message_response "Images processed successfully")) /\
    written_keys (trace st')
    = ["optimized/a.jpg"; "thumbnails/a.jpg"; "sizes/a-small.jpg";
       "sizes/a-medium.jpg"; "sizes/a-large.jpg"; "webp/a.webp";
       "optimized/b.PNG"; "thumbnails/b.PNG"; "sizes/b-small.PNG";
       "sizes/b-medium.PNG"; "sizes/b-large.PNG"; "webp/b.webp"].
Proof.
  apply (@batch_written_in_order (uniform_env (Memory.image "image/jpeg"))
           (Memory.batch_event
              [Memory.s3_record "photos" "original/a.jpg";
               Memory.s3_record "photos" "original/b.PNG"])
           [(Memory.s3_record "photos" "original/a.jpg",
             (VString "photos", "a.jpg"));
            (Memory.s3_record "photos" "original/b.PNG",
             (VString "photos", "b.PNG"))]
           tt).
  - reflexivity.
  - repeat constructor; try (simpl; tauto);
      intros st; exists (Memory.image "image/jpeg");
      now apply uniform_cooperative.
Defined.

(** ** The handler does not feed itself *)

(** An object the handler has written, delivered back to it as a record,
    is skipped before anything is fetched: no key it writes passes the
    prefix test. *)
Theorem own_writes_are_skipped {E : Env} (event : object) (w : World)
  (r : PutRequest) (bucket : value) (st : state) :
  In (PutObject r) (trace (fst (run (handler event) w))) ->
  process_item bucket (put_Key r) st =
  (mkState (world st)
           (trace st ++ [ConsoleLog "Skipping non-original file:" (put_Key r)]),
   Ok tt).
Proof.
  intros Hin.
  destruct (handler_preserves event (mkState w [])) as (tr & Htr & Hall).
  unfold run in Hin. rewrite Htr in Hin. simpl in Hin.
  rewrite Forall_forall in Hall. apply Hall in Hin.
  now apply process_item_skip_prefix.
Qed.

Lemma own_writes_are_skipped_witness :
  @process_item (Memory.env true) (VString "photos") "webp/photo.webp"
                (Memory.start true [])
  = (@mkState (Memory.env true) []
              [ConsoleLog "Skipping non-original file:" "webp/photo.webp"],
     Ok tt).
Proof.
  apply (@own_writes_are_skipped (Memory.env true)
           (Memory.direct_event "photos" "original/photo.jpg")
           [("original/photo.jpg", Memory.image "image/jpeg")]
           (mkPut (VString "photos") "webp/photo.webp" [255; 216; 255; 224]
                  "image/webp" cacheControl None)
           (VString "photos") (Memory.start true [])).
  vm_compute. tauto.
Defined.
